(** * RoidJS: the named-cell registry and the injector of [src/index.jsx]

    A shallow embedding of [Roid], [Injection] and the capabilities [get],
    [set] and [fn] that [Injection] hands to the wrapped component, with
    the calls they make into the reactive-state engine ([atom],
    [selector], [RecoilRoot], [useRecoilState]).

    Conventions.
    - A JavaScript object used as a dictionary ([atoms], [refs], [$],
      [setters], [updated]) is a [gmap string _] of its own properties.
      The first reading of the code takes a property that is not an own
      one for [undefined]; that is what the code does at every name but
      those of the members of [Object.prototype].  [Module Proto] is the
      second reading, of the same lines, with [Object.prototype] behind
      every dictionary; statements about what the code does at a name
      of any kind are made there.
    - A spec object of the array given to [inject] lives in a heap and the
      array holds its reference: [Injection] assigns to a field of it, and
      the caller keeps the object across renders.
    - A function that can throw returns the state it reached together with
      a [result]; what was written before the throw stays written.
    - Numbers are the integer-valued ones and [NaN]; function values occur
      only as the [get] field of a spec object and as plain functions
      given to [fn]. *)

From Stdlib Require Import ZArith String List.
From stdpp Require Import base gmap strings list fin_maps pretty.

(** ** JavaScript values *)

Module Js.

#[local] Set Warnings "-register-all".

(** The two classes of handle Recoil gives out.  Recoil identifies a node
    by its key, and so does a handle. *)
Inductive RecoilValue : Type :=
  | RecoilState (key : string)           (* what [atom] returns *)
  | RecoilValueReadOnly (key : string).  (* what [selector] returns for a spec without [set] *)

Definition rv_key (r : RecoilValue) : string :=
  match r with RecoilState k | RecoilValueReadOnly k => k end.

Inductive value : Type :=
  | VUndefined
  | VNull
  | VBool (b : bool)
  | VNum (n : Z)
  | VNaN
  | VStr (s : string)
  | VObj (props : list (string * value))
  | VRecoil (r : RecoilValue).

(** The object literal [{}]. *)
Definition empty_object : value := VObj [].

(** [typeof v !== "undefined"] *)
Definition defined (v : value) : bool :=
  match v with VUndefined => false | _ => true end.

(** ramda's [isNil] *)
Definition isNil (v : value) : bool :=
  match v with VUndefined | VNull => true | _ => false end.

(** ramda's [is(String)] *)
Definition is_String (v : value) : bool :=
  match v with VStr _ => true | _ => false end.

(** ToBoolean *)
Definition truthy (v : value) : bool :=
  match v with
  | VUndefined | VNull | VNaN => false
  | VBool b => b
  | VNum n => negb (n =? 0)%Z
  | VStr s => negb (String.eqb s EmptyString)
  | VObj _ | VRecoil _ => true
  end.

(** [a || b] *)
Definition or_else (a b : value) : value := if truthy a then a else b.

(** [a ?? b] *)
Definition nullish_else (a b : value) : value := if isNil a then b else a.

(** The property name [o[v]] reads when [v] is used as an index. *)
Definition to_property_key (v : value) : string :=
  match v with
  | VUndefined => "undefined"
  | VNull => "null"
  | VBool true => "true"
  | VBool false => "false"
  | VNum n => pretty n
  | VNaN => "NaN"
  | VStr s => s
  | VObj _ | VRecoil _ => "[object Object]"
  end.

(** [a[0]] on an argument array *)
Definition first (a : list value) : value := default VUndefined (a !! 0%nat).

(** [o[k]] on a dictionary of values: a missing property is [undefined]. *)
Definition prop (o : gmap string value) (k : string) : value :=
  default VUndefined (o !! k).

(** What a JavaScript call can throw. *)
Inductive exn : Type :=
  | TypeError                 (* calling something that is not a function *)
  | ReadOnlyRecoilValue       (* setting a selector that has no [set] *)
  | InvalidRecoilValue        (* the engine's [get] applied to no handle, or to an unknown node *)
  | SelectorDepth             (* the derivations did not settle within the fuel *)
  | NoRecoilRoot              (* a hook used outside every [RecoilRoot] *)
  | Thrown (v : value).       (* [throw v] in caller code *)

Inductive result (A : Type) : Type :=
  | Ok (a : A)
  | Throw (e : exn).

Arguments Ok {A} a.
Arguments Throw {A} e.

End Js.

Export Js.

(** ** The [get] field of a selector spec, index.jsx:48-53 *)

(** The [get] capability a derivation receives. *)
Definition getter : Type := value -> result value.

(** The value of the [get] field of a spec object.  It is either the
    function the caller wrote, or the closure lines 49-53 build around
    whatever the field held before ([_get]). *)
Inductive getfn : Type :=
  | UserFn (f : getter -> result value)
  | Wrapped (_get : getfn).

(** Lines 51-52, the [get] the closure hands on:
    [v2 => !isNil(atoms[v2]) && is(String)(v2) ? get(atoms[v2]) : get(v2)].
    The closure reads the module variable [atoms] when it runs, so the
    registry of that moment is an argument.  [atoms[v2]] is read on the
    own properties; [Proto.lookup_or_pass] reads it with the inherited
    members. *)
Definition lookup_or_pass (atoms : gmap string RecoilValue) (get : getter) : getter :=
  fun v2 =>
    match atoms !! to_property_key v2 with
    | Some a => if is_String v2 then get (VRecoil a) else get v2
    | None => get v2
    end.

(** Calling the value of a [get] field with the capability object
    [{get}]: lines 49-50, [({ get }) => _get({ get: ... })]. *)
Fixpoint call_getfn (atoms : gmap string RecoilValue) (g : getfn) (get : getter)
  : result value :=
  match g with
  | UserFn f => f get
  | Wrapped _get => call_getfn atoms _get (lookup_or_pass atoms get)
  end.

(** ** The reactive-state engine

    Recoil is a dependency of the repository; its code is not among the
    sources.  What [index.jsx] imports from it is modelled from section 6
    of the spec, which asks of the engine: a leaf cell from a key and a
    default, a computed cell from a key and a derivation over other
    cells, a subscription that gives back the current value and a
    setter, and a root boundary that scopes values to a subtree, isolated
    or inherited. *)

Module Recoil.

(** Modelled from the spec: what the engine keeps for a cell (section 3,
    "holds either a default value (leaf cell) or a derivation rule
    (computed cell)"). *)
Inductive Node : Type :=
  | AtomNode (default : value)
  | SelectorNode (get : getfn).

(** The values one root owns: what was written to its leaf cells. *)
Abbreviation Store := (gmap string value).

(** Modelled from the spec: the current value of a cell under one root
    (section 6, "subscribe a component to a cell and get back
    currentValue").  A leaf cell holds what was written to it under that
    root, else its default; a computed cell runs its derivation, whose
    [get] reads cells under the same root, and the read fails when the
    derivations do not settle within [fuel] nested calls. *)
Fixpoint getNodeValue (fuel : nat) (atoms : gmap string RecoilValue)
    (nodes : gmap string Node) (store : Store) (arg : value) : result value :=
  match arg with
  | VRecoil r =>
      match nodes !! rv_key r with
      | Some (AtomNode d) => Ok (default d (store !! rv_key r))
      | Some (SelectorNode g) =>
          match fuel with
          | O => Throw SelectorDepth
          | S fuel' => call_getfn atoms g (getNodeValue fuel' atoms nodes store)
          end
      | None => Throw InvalidRecoilValue
      end
  | _ => Throw InvalidRecoilValue
  end.

End Recoil.

Export Recoil.

(** ** Process-wide state *)

(** A spec object of the array given to [inject]: [{key, default, get, id}],
    every field but [key] optional. *)
Record SpecObj : Type := mkSpec {
  spec_key : string;
  spec_default : option value;
  spec_get : option getfn;
  spec_id : option value;
}.

(** An element of that array: a key, or a reference to a spec object the
    caller holds. *)
Inductive entry : Type :=
  | Key (k : string)
  | Obj (l : nat).

Record World : Type := mkWorld {
  atoms : gmap string RecoilValue;   (* [let atoms = {}], index.jsx:14 *)
  refs : gmap string value;          (* [let refs = {}], index.jsx:15 *)
  nodes : gmap string Node;          (* Recoil's table of nodes, by key *)
  stores : list Store;               (* one per [RecoilRoot] that owns state *)
  heap : gmap nat SpecObj;           (* the spec objects, by reference *)
}.

Definition empty_world : World := mkWorld ∅ ∅ ∅ [] ∅.

Definition with_atoms (f : gmap string RecoilValue -> gmap string RecoilValue) (w : World) :=
  mkWorld (f (atoms w)) (refs w) (nodes w) (stores w) (heap w).
Definition with_refs (f : gmap string value -> gmap string value) (w : World) :=
  mkWorld (atoms w) (f (refs w)) (nodes w) (stores w) (heap w).
Definition with_nodes (f : gmap string Node -> gmap string Node) (w : World) :=
  mkWorld (atoms w) (refs w) (f (nodes w)) (stores w) (heap w).
Definition with_stores (f : list Store -> list Store) (w : World) :=
  mkWorld (atoms w) (refs w) (nodes w) (f (stores w)) (heap w).
Definition with_heap (f : gmap nat SpecObj -> gmap nat SpecObj) (w : World) :=
  mkWorld (atoms w) (refs w) (nodes w) (stores w) (f (heap w)).

(** ** Engine calls that touch the state *)

(** Modelled from the spec: [atom({key, default})], "create a leaf cell
    with key+default" (section 6).  The node is filed under the key and
    the handle names it. *)
Definition atom (key : string) (default : value) (w : World) : World * RecoilValue :=
  (with_nodes <[key := AtomNode default]> w, RecoilState key).

(** Modelled from the spec: [selector(v)], "create a computed cell with
    key+derivation over other cells" (section 6).  The engine reads
    [v.key] and [v.get] when it is called; a spec without [set] gives a
    read-only handle. *)
Definition selector (key : string) (get : getfn) (w : World) : World * RecoilValue :=
  (with_nodes <[key := SelectorNode get]> w, RecoilValueReadOnly key).

(** Modelled from the spec: [<RecoilRoot override>], "a root boundary
    primitive supporting isolated vs inherited value scoping for a
    subtree" (sections 4.2 and 6).  A root nested in another one with
    [override = false] passes the enclosing root through; every other
    root owns a new store, empty at first. *)
Definition RecoilRoot (override : bool) (parent : option nat) (w : World) : World * nat :=
  match parent, override with
  | Some p, false => (w, p)
  | _, _ => (with_stores (fun ss => ss ++ [∅]) w, length (stores w))
  end.

(** Modelled from the spec: the setter of a subscription (section 6,
    "setterFunction"), for handle [r] under root [scope].  It writes the
    leaf cell under that root; a read-only handle refuses. *)
Definition setRecoilState (scope : nat) (r : RecoilValue) (val : value) (w : World)
  : World * result unit :=
  match r with
  | RecoilState key =>
      (with_stores (alter <[key := val]> scope) w, Ok tt)
  | RecoilValueReadOnly _ => (w, Throw ReadOnlyRecoilValue)
  end.

(** Modelled from the spec: the value of a subscription (section 6,
    "currentValue"), for handle [r] under root [scope]. *)
Definition useRecoilValue (fuel : nat) (scope : nat) (r : RecoilValue) (w : World)
  : result value :=
  match stores w !! scope with
  | Some store => getNodeValue fuel (atoms w) (nodes w) store (VRecoil r)
  | None => Throw NoRecoilRoot
  end.

(** Modelled from the spec: [useRecoilState(r)] in a component under
    root [scope], the pair [[val, set]] (section 6, "subscribe a
    component to a cell and get back (currentValue, setterFunction)").
    The setter is the closure of [setRecoilState] over the root and the
    handle; the root is the component's, so the handle stands for the
    setter. *)
Definition useRecoilState (fuel : nat) (scope : nat) (r : RecoilValue) (w : World)
  : result (value * RecoilValue) :=
  match useRecoilValue fuel scope r w with
  | Ok val => Ok (val, r)
  | Throw e => Throw e
  end.

(** ** [Roid], index.jsx:17-35 *)

(** The body of the loop of [Path], lines 21-26, for one enumerable
    property [(k, defaults[k])] of [defaults].  [atoms[k]] is read on
    the own properties; [Proto.Path_step] reads it with the inherited
    members. *)
Definition Path_step (w : World) (kd : string * value) : World :=
  match atoms w !! kd.1 with
  | Some _ => w
  | None =>
      let '(w', a) := atom kd.1 kd.2 w in
      with_atoms <[kd.1 := a]> w'
  end.

(** [Path], lines 18-29: the properties of [defaults || {}] in
    enumeration order.  Line 19 does nothing: [atoms] is never nil. *)
Definition Path (defaults : list (string * value)) (w : World) : World :=
  fold_left Path_step defaults w.

(** [<Roid defaults override>] mounted under the root [parent], if any;
    [override] is [None] when the prop is left out ([override = true] in
    the parameter list).  The result is the root its children render
    under. *)
Definition Roid (defaults : list (string * value)) (override : option bool)
    (parent : option nat) (w : World) : World * nat :=
  let override := default true override in
  let '(w', scope) := RecoilRoot override parent w in
  (Path defaults w', scope).

(** ** [Injection], index.jsx:37-84 *)

(** What one render of [Injection] binds: [$], [setters], and the root
    the setters write to. *)
Record Binding : Type := mkBinding {
  dollar : gmap string value;
  setters : gmap string RecoilValue;
  scope : nat;
}.

(** Lines 46-55: the entry is an object with an own [get].  Here and
    in [resolve_leaf], [atoms[key]] is read on the own properties;
    [Proto.resolve_computed] and [Proto.resolve_leaf] read it with the
    inherited members. *)
Definition resolve_computed (l : nat) (v : SpecObj) (_get : getfn) (w : World)
  : World * (string * RecoilValue) :=
  let key := spec_key v in
  let v' := mkSpec (spec_key v) (spec_default v) (Some (Wrapped _get)) (spec_id v) in
  let w1 := with_heap <[l := v']> w in
  match atoms w1 !! key with
  | Some a => (w1, (key, a))
  | None =>
      let '(w2, a) := selector (spec_key v') (Wrapped _get) w1 in
      (with_atoms <[key := a]> w2, (key, a))
  end.

(** Lines 56-66: every other entry.  [_default] is [null] at line 62. *)
Definition resolve_leaf (key : string) (w : World) : World * (string * RecoilValue) :=
  let _default := VNull in
  match atoms w !! key with
  | Some a => (w, (key, a))
  | None =>
      let '(w1, a) := atom key _default w in
      (with_atoms <[key := a]> w1, (key, a))
  end.

(** Lines 43-66: the key and the handle of one entry. *)
Definition resolve (v : entry) (w : World) : World * result (string * RecoilValue) :=
  match v with
  | Key k =>
      let '(w', ka) := resolve_leaf k w in (w', Ok ka)
  | Obj l =>
      match heap w !! l with
      | None => (w, Throw TypeError)
      | Some o =>
          match spec_get o with
          | Some _get => let '(w', ka) := resolve_computed l o _get w in (w', Ok ka)
          | None => let '(w', ka) := resolve_leaf (spec_key o) w in (w', Ok ka)
          end
      end
  end.

(** Lines 42-70: the loop, from the entries still to process. *)
Fixpoint Injection_loop (fuel : nat) (_atoms : list entry) (b : Binding) (w : World)
  : World * result Binding :=
  match _atoms with
  | [] => (w, Ok b)
  | v :: rest =>
      match resolve v w with
      | (w1, Throw e) => (w1, Throw e)
      | (w1, Ok (key, _atom)) =>
          match useRecoilState fuel (scope b) _atom w1 with
          | Throw e => (w1, Throw e)
          | Ok (val, set) =>
              Injection_loop fuel rest
                (mkBinding (<[key := val]> (dollar b)) (<[key := set]> (setters b)) (scope b))
                w1
          end
      end
  end.

(** One render of [Injection] under the root [scope]. *)
Definition Injection (fuel : nat) (_atoms : list entry) (scope : nat) (w : World)
  : World * result Binding :=
  Injection_loop fuel _atoms (mkBinding ∅ ∅ scope) w.

(** [inject(atoms, Component)], lines 86-88: the component that renders
    [Injection] with [_atoms] bound to the array. *)
Definition inject (atoms : list entry) (fuel : nat) (scope : nat) (w : World)
  : World * result Binding :=
  Injection fuel atoms scope w.

(** ** [get], [set] and [fn], index.jsx:72-81 *)

(** What the three closures of one render share and change: [updated]
    (line 41) and the process-wide state. *)
Record Session : Type := mkSession {
  updated : gmap string value;
  world : World;
}.

(** [get], lines 72-73.  Here and in [set], [updated], [$] and
    [setters] are read and assigned on their own properties; [Proto.get]
    and [Proto.set] have the inherited members. *)
Definition get (b : Binding) (s : Session) (key : string) : value :=
  if defined (prop (updated s) key) then prop (updated s) key else prop (dollar b) key.

(** [set], lines 75-78 *)
Definition set (b : Binding) (val : value) (key : string) (s : Session)
  : Session * result unit :=
  let s1 := mkSession (<[key := val]> (updated s)) (world s) in
  match setters b !! key with
  | None => (s1, Throw TypeError)
  | Some a =>
      let '(w', r) := setRecoilState (scope b) a val (world s1) in
      (mkSession (updated s1) w', r)
  end.

(** The data fields of the capability bag, [{args, val}]; its other
    fields, [get], [set], [refs] and [fn], are what a plain function can
    do, below. *)
Record Bag : Type := mkBag {
  args : list value;
  val : value;
}.

(** The body of a plain function, as the capabilities it uses in turn;
    of [refs], it reads and assigns own properties.  [Proto.action] has
    the inherited members, and [delete]. *)
Inductive action : Type :=
  | Return (r : value)
  | Raise (e : exn)
  | DoGet (key : string) (k : value -> action)
  | DoSet (val : value) (key : string) (k : action)
  | DoFn (func : Bag -> action) (args : list value) (k : value -> action)
  | RefsGet (name : string) (k : value -> action)
  | RefsSet (name : string) (v : value) (k : action)
  | TryCatch (body : action) (k : action).        (* [try { body } catch (e) {}], then [k] *)

(** [fn], lines 80-81: the call [fn(func)(...args)] *)
Definition fn (func : Bag -> action) (args : list value) : action :=
  func (mkBag args (or_else (first args) empty_object)).

Fixpoint run (b : Binding) (a : action) (s : Session) : Session * result value :=
  match a with
  | Return r => (s, Ok r)
  | Raise e => (s, Throw e)
  | DoGet key k => run b (k (get b s key)) s
  | DoSet val key k =>
      match set b val key s with
      | (s', Ok _) => run b k s'
      | (s', Throw e) => (s', Throw e)
      end
  | DoFn func args k =>
      match run b (fn func args) s with
      | (s', Ok r) => run b (k r) s'
      | (s', Throw e) => (s', Throw e)
      end
  | RefsGet name k => run b (k (prop (refs (world s)) name)) s
  | RefsSet name v k =>
      run b k (mkSession (updated s) (with_refs <[name := v]> (world s)))
  | TryCatch body k => run b k (run b body s).1
  end.

(** ** Composing plain functions by hand *)

(** [a; f]: run [a], then [f] on what it returned. *)
Fixpoint bind (a : action) (f : value -> action) : action :=
  match a with
  | Return r => f r
  | Raise e => Raise e
  | DoGet key k => DoGet key (fun v => bind (k v) f)
  | DoSet val key k => DoSet val key (bind k f)
  | DoFn func args k => DoFn func args (fun r => bind (k r) f)
  | RefsGet name k => RefsGet name (fun v => bind (k v) f)
  | RefsSet name v k => RefsSet name v (bind k f)
  | TryCatch body k => TryCatch body (bind k f)
  end.

(** Every call [fn(func)(...args)] replaced by the body of [func], at the
    bag [fn] would have built, and so on inside that body. *)
Fixpoint inline (a : action) : action :=
  match a with
  | Return r => Return r
  | Raise e => Raise e
  | DoGet key k => DoGet key (fun v => inline (k v))
  | DoSet val key k => DoSet val key (inline k)
  | DoFn func args k => bind (inline (fn func args)) (fun r => inline (k r))
  | RefsGet name k => RefsGet name (fun v => inline (k v))
  | RefsSet name v k => RefsSet name v (inline k)
  | TryCatch body k => TryCatch (inline body) (inline k)
  end.

(** No call through [fn] is left. *)
Inductive fn_free : action -> Prop :=
  | ff_Return r : fn_free (Return r)
  | ff_Raise e : fn_free (Raise e)
  | ff_DoGet key k : (forall v, fn_free (k v)) -> fn_free (DoGet key k)
  | ff_DoSet val key k : fn_free k -> fn_free (DoSet val key k)
  | ff_RefsGet name k : (forall v, fn_free (k v)) -> fn_free (RefsGet name k)
  | ff_RefsSet name v k : fn_free k -> fn_free (RefsSet name v k)
  | ff_TryCatch body k : fn_free body -> fn_free k -> fn_free (TryCatch body k).

(** ** Notions the statements use *)

(** What a step keeps of the registry entry of a key that is already
    there: the handle, and the node behind it. *)
Definition keeps (w w' : World) : Prop :=
  forall k a, atoms w !! k = Some a ->
    atoms w' !! k = Some a /\ nodes w' !! k = nodes w !! k.

(** The key an entry stands for: [v] itself, or [v.key]. *)
Definition entry_key (h : gmap nat SpecObj) (v : entry) : option string :=
  match v with
  | Key k => Some k
  | Obj l => spec_key <$> h !! l
  end.

#[global] Instance entry_eq_dec : EqDecision entry.
Proof. solve_decision. Defined.

(** How often the array names the object at [l]. *)
Definition occurrences (l : nat) (ents : list entry) : nat :=
  length (filter (fun v => v = Obj l) ents).

(** What lines 48-53 leave in the object. *)
Definition rewrap (o : SpecObj) : SpecObj :=
  match spec_get o with
  | Some g => mkSpec (spec_key o) (spec_default o) (Some (Wrapped g)) (spec_id o)
  | None => o
  end.

(** [n] renders in a row of the component [inject(ents, Component)]. *)
Fixpoint renders (n : nat) (fuel : nat) (ents : list entry) (sc : nat) (w : World)
  : World * result unit :=
  match n with
  | O => (w, Ok tt)
  | S n' =>
      match inject ents fuel sc w with
      | (w', Ok _) => renders n' fuel ents sc w'
      | (w', Throw e) => (w', Throw e)
      end
  end.

(** The function the caller wrote, under the wrappers, and how many
    wrappers there are. *)
Fixpoint user_fn (g : getfn) : getter -> result value :=
  match g with
  | UserFn f => f
  | Wrapped _get => user_fn _get
  end.

Fixpoint depth (g : getfn) : nat :=
  match g with
  | UserFn _ => O
  | Wrapped _get => S (depth _get)
  end.

(** Two states of the process look the same from root [sc]. *)
Definition same_view (sc : nat) (w w' : World) : Prop :=
  atoms w = atoms w' /\ nodes w = nodes w' /\ heap w = heap w' /\
  stores w !! sc = stores w' !! sc.

(** An entry that takes the branch of lines 56-66: a key, or an object
    without an own [get]. *)
Definition leaf_entry (h : gmap nat SpecObj) (v : entry) (key : string) : Prop :=
  match v with
  | Key k => k = key
  | Obj l => exists o, h !! l = Some o /\ spec_get o = None /\ spec_key o = key
  end.

(** [$[key]] after a render, when the render returned. *)
Definition observed (r : World * result Binding) (key : string) : option value :=
  match r.2 with
  | Ok b => dollar b !! key
  | Throw _ => None
  end.

(** ** Worked inputs *)

(** [{key: "state_2", default: 2}], the entry of the README's first
    listing, held at reference 0. *)
Definition state_2 : SpecObj := mkSpec "state_2" (Some (VNum 2)) None None.

Definition state_2_world : World :=
  with_heap <[0%nat := state_2]> (Roid [] None None empty_world).1.

(** A component that injects ["k"] under a bare [<Roid>]. *)
Definition k_render : World * result Binding :=
  Injection 0 [Key "k"] 0 (Roid [] None None empty_world).1.

(** [{key: "k", default: 2}], held at reference 0, in a process where
    nothing is registered yet. *)
Definition k_default_2 : SpecObj := mkSpec "k" (Some (VNum 2)) None None.

Definition k_world : World := with_heap <[0%nat := k_default_2]> empty_world.

(** [a + b] and [a * b] on two numbers; the functions below are run on
    numbers only. *)
Definition arith (f : Z -> Z -> Z) (a b : value) : value :=
  match a, b with
  | VNum x, VNum y => VNum (f x y)
  | _, _ => VNaN
  end.

(** The README's
    [const multiply = ({set, get, val}) => set(get(key) * val, key)] *)
Definition multiply (key : string) : Bag -> action :=
  fun bag =>
    DoGet key (fun c => DoSet (arith Z.mul c (val bag)) key (Return VUndefined)).

(** The README's
    [add_and_multiply = ({set, get, val, fn}) =>
       { set(get(key) + val, key); fn(multiply)(3) }] *)
Definition add_and_multiply (key : string) : Bag -> action :=
  fun bag =>
    DoGet key (fun c => DoSet (arith Z.add c (val bag)) key
      (DoFn (multiply key) [VNum 3] (fun _ => Return VUndefined))).

(** The two bodies written out in sequence, by hand. *)
Definition add_and_multiply_by_hand (key : string) : Bag -> action :=
  fun bag =>
    DoGet key (fun c => DoSet (arith Z.add c (val bag)) key
      (DoGet key (fun c' => DoSet (arith Z.mul c' (VNum 3)) key (Return VUndefined)))).

(** A component that injects ["counter"] under
    [<Roid defaults={{counter: 0}}>]. *)
Definition counter_render : World * result Binding :=
  let m := Roid [("counter", VNum 0)] None None empty_world in
  Injection 0 [Key "counter"] m.2 m.1.

(** The [val] field in the spec's words: [callArgs[0] ?? {}]. *)
Definition claimed_val (callArgs : list value) : value :=
  nullish_else (first callArgs) empty_object.

(** A plain function that returns the [val] it was given. *)
Definition return_val : Bag -> action := fun bag => Return (val bag).

(** The README's [{key: "selector", get: ({get}) => get("atom") + 1}],
    held at reference 0, under [<Roid defaults={{atom: 1}}>]. *)
Definition atom_plus_1 : getter -> result value :=
  fun get =>
    match get (VStr "atom") with
    | Ok a => Ok (arith Z.add a (VNum 1))
    | Throw e => Throw e
    end.

Definition selector_spec : SpecObj := mkSpec "selector" None (Some (UserFn atom_plus_1)) None.

(** Two sibling [<Roid>]s with the defaults [{k: 1}] and [{k: 2}]: the
    state once both are mounted and their two roots; and the render of a
    component injecting ["k"] under the first. *)
Definition siblings : World * nat * nat :=
  let m1 := Roid [("k", VNum 1)] None None empty_world in
  let m2 := Roid [("k", VNum 2)] None None m1.1 in
  (m2.1, m1.2, m2.2).

Definition sibling_render : World * result Binding :=
  Injection 0 [Key "k"] siblings.1.2 siblings.1.1.

(** [{key: "todo", id: 1}] and [{key: "todo", id: 2}], held at references
    0 and 1, injected together under a bare [<Roid>]. *)
Definition todo_1 : SpecObj := mkSpec "todo" None None (Some (VNum 1)).
Definition todo_2 : SpecObj := mkSpec "todo" None None (Some (VNum 2)).

Definition todo_world : World :=
  with_heap (fun h => <[1%nat := todo_2]> (<[0%nat := todo_1]> h))
    (Roid [] None None empty_world).1.

Definition todo_render : World * result Binding :=
  Injection 0 [Obj 0; Obj 1] 0 todo_world.

(** ** Further notions *)

(** The keys of an array of entries, in order. *)
Definition entry_keys (h : gmap nat SpecObj) (ents : list entry) : list string :=
  omap (entry_key h) ents.

(** The test of line 46 fails: a key, or an object without an own [get]. *)
Definition is_leaf_entry (h : gmap nat SpecObj) (v : entry) : bool :=
  match v with
  | Key _ => true
  | Obj l =>
      match h !! l with
      | Some o => match spec_get o with None => true | Some _ => false end
      | None => false
      end
  end.

(** Every registered key is filed with a handle that names it, a
    read-write one over a leaf cell or a read-only one over a computed
    cell. *)
Definition consistent (w : World) : Prop :=
  forall k a, atoms w !! k = Some a ->
    (a = RecoilState k /\ exists d, nodes w !! k = Some (AtomNode d)) \/
    (a = RecoilValueReadOnly k /\ exists g, nodes w !! k = Some (SelectorNode g)).

(** Only leaf cells are registered. *)
Definition only_leaves (w : World) : Prop :=
  forall k a, atoms w !! k = Some a ->
    a = RecoilState k /\ exists d, nodes w !! k = Some (AtomNode d).

(** What a render reads for a leaf key [k] under a root whose store is
    [store]: what was written, else the default of the registered cell,
    else the [null] a first registration by [Injection] gives. *)
Definition leaf_value (w : World) (store : Store) (k : string) : value :=
  match atoms w !! k, nodes w !! k with
  | Some _, Some (AtomNode d) => default d (store !! k)
  | _, _ => default VNull (store !! k)
  end.

(** A function of a [get] capability that uses it only by calling it. *)
Definition extensional (f : getter -> result value) : Prop :=
  forall g1 g2 : getter, (forall x, g1 x = g2 x) -> f g1 = f g2.

(** ** Further worked inputs *)

(** The README's first listing: [<Roid defaults={{state_1: 1}}>], the
    array [["state_1", {key: "state_2", default: 2}]] of [App], whose
    object is held at reference 0, and the array
    [["state_1", "state_2"]] of [Add]. *)
Definition readme_world : World :=
  with_heap <[0%nat := state_2]> (Roid [("state_1", VNum 1)] None None empty_world).1.

Definition readme_App : list entry := [Key "state_1"; Obj 0].

Definition readme_Add : list entry := [Key "state_1"; Key "state_2"].

(** * Behind the dictionaries: [Object.prototype]

    [atoms], [refs], [$], [setters] and [updated] are object literals,
    and an object literal inherits the members of [Object.prototype].
    The definitions above read a dictionary by its own properties; that
    is what the code reads at every name but the twelve below.  The
    definitions of this module are the same lines of [index.jsx] with
    the inherited members in place. *)

Module Proto.

(** The property names of [Object.prototype]. *)
Definition Object_prototype : list string :=
  ["constructor"; "hasOwnProperty"; "isPrototypeOf"; "propertyIsEnumerable";
   "toLocaleString"; "toString"; "valueOf"; "__proto__";
   "__defineGetter__"; "__defineSetter__"; "__lookupGetter__"; "__lookupSetter__"].

Definition inherited (k : string) : bool := bool_decide (k ∈ Object_prototype).

(** What the code can hold in a variable: a value of the model, or the
    member of [Object.prototype] under an inherited name, which is a
    built-in function, and for ["__proto__"] the prototype itself. *)
Inductive jsval : Type :=
  | Val (v : value)
  | Builtin (name : string).

(** [typeof j !== "undefined"] *)
Definition defined (j : jsval) : bool :=
  match j with
  | Val v => Js.defined v
  | Builtin _ => true
  end.

(** [o[k]] on a dictionary [o] with own properties of type [A] and
    [Object.prototype] behind it. *)
Inductive slot (A : Type) : Type :=
  | Own (a : A)
  | Inherited (name : string)
  | Absent.

Arguments Own {A} a.
Arguments Inherited {A} name.
Arguments Absent {A}.

Definition read {A : Type} (o : gmap string A) (k : string) : slot A :=
  match o !! k with
  | Some a => Own a
  | None => if inherited k then Inherited k else Absent
  end.

(** The property name [o[v]] reads.  An object is converted by its
    [toString]; one with an own property of that name, which in the
    model is no function, cannot be converted. *)
Definition to_property_key (v : value) : result string :=
  match v with
  | VObj props =>
      if bool_decide ("toString" ∈ props.*1) then Throw TypeError
      else Ok "[object Object]"
  | _ => Ok (Js.to_property_key v)
  end.

(** ** The [get] field of a selector spec, index.jsx:48-53 *)

(** What the engine's [get] can be applied to. *)
Definition getter : Type := jsval -> result value.

(** Lines 51-52:
    [v2 => !isNil(atoms[v2]) && is(String)(v2) ? get(atoms[v2]) : get(v2)].
    Neither a built-in function nor [Object.prototype] is a string. *)
Definition lookup_or_pass (atoms : gmap string RecoilValue) (get : getter) : getter :=
  fun v2 =>
    match v2 with
    | Builtin _ => get v2
    | Val v =>
        match to_property_key v with
        | Throw e => Throw e
        | Ok k =>
            match read atoms k with
            | Own a => if is_String v then get (Val (VRecoil a)) else get v2
            | Inherited name => if is_String v then get (Builtin name) else get v2
            | Absent => get v2
            end
        end
    end.

(** Lines 49-50.  The function the caller wrote applies its [get] to
    values of the model. *)
Fixpoint call_getfn (atoms : gmap string RecoilValue) (g : getfn) (get : getter)
  : result value :=
  match g with
  | UserFn f => f (fun v => get (Val v))
  | Wrapped _get => call_getfn atoms _get (lookup_or_pass atoms get)
  end.

(** ** The engine *)

(** Modelled from the spec: as [Recoil.getNodeValue]; the engine's [get]
    applied to anything that is no handle throws. *)
Fixpoint getNodeValue (fuel : nat) (atoms : gmap string RecoilValue)
    (nodes : gmap string Node) (store : Store) (arg : jsval) : result value :=
  match arg with
  | Val (VRecoil r) =>
      match nodes !! rv_key r with
      | Some (AtomNode d) => Ok (default d (store !! rv_key r))
      | Some (SelectorNode g) =>
          match fuel with
          | O => Throw SelectorDepth
          | S fuel' => call_getfn atoms g (getNodeValue fuel' atoms nodes store)
          end
      | None => Throw InvalidRecoilValue
      end
  | _ => Throw InvalidRecoilValue
  end.

(** Modelled from the spec: as [useRecoilValue] above. *)
Definition useRecoilValue (fuel : nat) (scope : nat) (r : RecoilValue) (w : World)
  : result value :=
  match stores w !! scope with
  | Some store => getNodeValue fuel (atoms w) (nodes w) store (Val (VRecoil r))
  | None => Throw NoRecoilRoot
  end.

(** Modelled from the spec: [useRecoilState(_atom)], as above when
    [_atom] is a handle; a subscription is to a cell (section 6), and
    the hook throws when it is handed anything else. *)
Definition useRecoilState (fuel : nat) (scope : nat) (_atom : slot RecoilValue) (w : World)
  : result (value * RecoilValue) :=
  match _atom with
  | Own r =>
      match useRecoilValue fuel scope r w with
      | Ok val => Ok (val, r)
      | Throw e => Throw e
      end
  | Inherited _ | Absent => Throw InvalidRecoilValue
  end.

(** ** [Roid], index.jsx:17-35 *)

(** Lines 21-26: [isNil(atoms[k])] holds when [atoms] has no own
    property [k] and inherits none. *)
Definition Path_step (w : World) (kd : string * value) : World :=
  match read (atoms w) kd.1 with
  | Absent =>
      let '(w', a) := atom kd.1 kd.2 w in
      with_atoms <[kd.1 := a]> w'
  | Own _ | Inherited _ => w
  end.

Definition Path (defaults : list (string * value)) (w : World) : World :=
  fold_left Path_step defaults w.

Definition Roid (defaults : list (string * value)) (override : option bool)
    (parent : option nat) (w : World) : World * nat :=
  let override := default true override in
  let '(w', scope) := RecoilRoot override parent w in
  (Path defaults w', scope).

(** ** [Injection], index.jsx:37-84 *)

(** Lines 46-55.  [_atom] is what [atoms[key]] reads at line 55. *)
Definition resolve_computed (l : nat) (v : SpecObj) (_get : getfn) (w : World)
  : World * (string * slot RecoilValue) :=
  let key := spec_key v in
  let v' := mkSpec (spec_key v) (spec_default v) (Some (Wrapped _get)) (spec_id v) in
  let w1 := with_heap <[l := v']> w in
  let w2 :=
    match read (atoms w1) key with
    | Absent =>
        let '(w2, a) := selector (spec_key v') (Wrapped _get) w1 in
        with_atoms <[key := a]> w2
    | Own _ | Inherited _ => w1
    end in
  (w2, (key, read (atoms w2) key)).

(** Lines 56-66.  [_atom] is what [atoms[key]] reads at line 65. *)
Definition resolve_leaf (key : string) (w : World) : World * (string * slot RecoilValue) :=
  let _default := VNull in
  let w1 :=
    match read (atoms w) key with
    | Absent =>
        let '(w1, a) := atom key _default w in
        with_atoms <[key := a]> w1
    | Own _ | Inherited _ => w
    end in
  (w1, (key, read (atoms w1) key)).

(** Lines 43-66. *)
Definition resolve (v : entry) (w : World)
  : World * result (string * slot RecoilValue) :=
  match v with
  | Key k =>
      let '(w', ka) := resolve_leaf k w in (w', Ok ka)
  | Obj l =>
      match heap w !! l with
      | None => (w, Throw TypeError)
      | Some o =>
          match spec_get o with
          | Some _get => let '(w', ka) := resolve_computed l o _get w in (w', Ok ka)
          | None => let '(w', ka) := resolve_leaf (spec_key o) w in (w', Ok ka)
          end
      end
  end.

(** Lines 42-70.  Lines 68-69 are reached with a handle, which [atoms]
    holds as an own property under [key]; [atoms] gets own properties at
    lines 22, 54 and 60 only, under names for which [isNil(atoms[k])]
    held, so [key] is no inherited name and the two assignments create
    own properties ([Proto_Injection_loop_plain] below). *)
Fixpoint Injection_loop (fuel : nat) (_atoms : list entry) (b : Binding) (w : World)
  : World * result Binding :=
  match _atoms with
  | [] => (w, Ok b)
  | v :: rest =>
      match resolve v w with
      | (w1, Throw e) => (w1, Throw e)
      | (w1, Ok (key, _atom)) =>
          match useRecoilState fuel (scope b) _atom w1 with
          | Throw e => (w1, Throw e)
          | Ok (val, set) =>
              Injection_loop fuel rest
                (mkBinding (<[key := val]> (dollar b)) (<[key := set]> (setters b)) (scope b))
                w1
          end
      end
  end.

Definition Injection (fuel : nat) (_atoms : list entry) (scope : nat) (w : World)
  : World * result Binding :=
  Injection_loop fuel _atoms (mkBinding ∅ ∅ scope) w.

Definition inject (atoms : list entry) (fuel : nat) (scope : nat) (w : World)
  : World * result Binding :=
  Injection fuel atoms scope w.

(** ** [get] and [set], index.jsx:72-78 *)

(** The prototype of [updated]: [Object.prototype] at first, and what an
    assignment to [updated["__proto__"]] has put in its place. *)
Inductive prototype : Type :=
  | ObjectPrototype
  | NoPrototype
  | ObjectValue (o : value).

(** [updated], line 41: its own properties and its prototype. *)
Record dict : Type := mkDict {
  own : gmap string value;
  proto : prototype;
}.

(** The object literal [{}]. *)
Definition empty_dict : dict := mkDict ∅ ObjectPrototype.

(** The own property [k] of an object value: of a plain object, what it
    lists under [k]; of a handle, its key (section 3, "identified by a
    unique string key"). *)
Definition own_property (o : value) (k : string) : option value :=
  match o with
  | VObj props => (list_to_map props : gmap string value) !! k
  | VRecoil r => if decide (k = "key") then Some (VStr (rv_key r)) else None
  | _ => None
  end.

(** [d[k]]: the own property, else what the prototype chain gives.  The
    inherited ["__proto__"] is an accessor that returns the prototype of
    the object it is read on. *)
Definition dict_read (d : dict) (k : string) : jsval :=
  match own d !! k with
  | Some v => Val v
  | None =>
      match proto d with
      | ObjectPrototype => if inherited k then Builtin k else Val VUndefined
      | NoPrototype => Val VUndefined
      | ObjectValue o =>
          match own_property o k with
          | Some x => Val x
          | None =>
              if decide (k = "__proto__") then Val o
              else if inherited k then Builtin k else Val VUndefined
          end
      end
  end.

(** Whether an assignment to [d["__proto__"]] reaches the accessor of
    [Object.prototype]: [d] has no own property of that name, and no
    object before [Object.prototype] in its chain has one. *)
Definition reaches_accessor (d : dict) : bool :=
  match own d !! "__proto__" with
  | Some _ => false
  | None =>
      match proto d with
      | ObjectPrototype => true
      | NoPrototype => false
      | ObjectValue o => match own_property o "__proto__" with Some _ => false | None => true end
      end
  end.

(** [d[k] = v].  Under every name but ["__proto__"] this creates or
    updates an own property.  Under ["__proto__"], when the accessor is
    reached, an object or [null] becomes the prototype and any other
    value is ignored. *)
Definition dict_write (d : dict) (k : string) (v : value) : dict :=
  if decide (k = "__proto__") then
    if reaches_accessor d then
      match v with
      | VNull => mkDict (own d) NoPrototype
      | VObj _ | VRecoil _ => mkDict (own d) (ObjectValue v)
      | _ => d
      end
    else mkDict (<[k := v]> (own d)) (proto d)
  else mkDict (<[k := v]> (own d)) (proto d).

(** What the closures of one render share and change: [updated], the
    process-wide state, and the prototype of [refs], which is
    [Object.prototype] until a plain function assigns another to
    [refs["__proto__"]] ([refs (world s)] holds the own properties). *)
Record Session : Type := mkSession {
  updated : dict;
  refs_proto : prototype;
  world : World;
}.

(** [refs] as the plain function sees it. *)
Definition refs_dict (s : Session) : dict := mkDict (refs (world s)) (refs_proto s).

(** [get], lines 72-73.  [$] is an object literal no code of the module
    gives another prototype. *)
Definition get (b : Binding) (s : Session) (key : string) : jsval :=
  if defined (dict_read (updated s) key) then dict_read (updated s) key
  else
    match read (dollar b) key with
    | Own v => Val v
    | Inherited name => Builtin name
    | Absent => Val VUndefined
    end.

(** The call [setters[name](arg)] of a member of [Object.prototype]:
    ["__proto__"] names no function; [__defineGetter__] and
    [__defineSetter__] ask for a function as second argument;
    [hasOwnProperty], [propertyIsEnumerable], [__lookupGetter__] and
    [__lookupSetter__] convert their argument to a property name; the
    others return whatever they are given. *)
Definition call_member (name : string) (arg : value) : result unit :=
  if decide (name = "__proto__") then Throw TypeError
  else if bool_decide (name ∈ ["__defineGetter__"; "__defineSetter__"]) then Throw TypeError
  else if bool_decide (name ∈ ["hasOwnProperty"; "propertyIsEnumerable";
                               "__lookupGetter__"; "__lookupSetter__"]) then
    match to_property_key arg with
    | Ok _ => Ok tt
    | Throw e => Throw e
    end
  else Ok tt.

(** [set], lines 75-78 *)
Definition set (b : Binding) (val : value) (key : string) (s : Session)
  : Session * result unit :=
  let s1 := mkSession (dict_write (updated s) key val) (refs_proto s) (world s) in
  match read (setters b) key with
  | Own a =>
      let '(w', r) := setRecoilState (scope b) a val (world s1) in
      (mkSession (updated s1) (refs_proto s1) w', r)
  | Inherited name => (s1, call_member name val)
  | Absent => (s1, Throw TypeError)
  end.

(** ** [fn], index.jsx:80-81 *)

(** The body of a plain function, as the capabilities it uses in turn;
    with [refs] it reads, assigns and deletes properties. *)
Inductive action : Type :=
  | Return (r : value)
  | Raise (e : exn)
  | DoGet (key : string) (k : jsval -> action)
  | DoSet (val : value) (key : string) (k : action)
  | DoFn (func : Bag -> action) (args : list value) (k : value -> action)
  | RefsGet (name : string) (k : jsval -> action)
  | RefsSet (name : string) (v : value) (k : action)
  | RefsDelete (name : string) (k : action)         (* [delete refs[name]] *)
  | TryCatch (body : action) (k : action).          (* [try { body } catch (e) {}], then [k] *)

Definition fn (func : Bag -> action) (args : list value) : action :=
  func (mkBag args (or_else (first args) empty_object)).

Fixpoint run (b : Binding) (a : action) (s : Session) : Session * result value :=
  match a with
  | Return r => (s, Ok r)
  | Raise e => (s, Throw e)
  | DoGet key k => run b (k (get b s key)) s
  | DoSet val key k =>
      match set b val key s with
      | (s', Ok _) => run b k s'
      | (s', Throw e) => (s', Throw e)
      end
  | DoFn func args k =>
      match run b (fn func args) s with
      | (s', Ok r) => run b (k r) s'
      | (s', Throw e) => (s', Throw e)
      end
  | RefsGet name k => run b (k (dict_read (refs_dict s) name)) s
  | RefsSet name v k =>
      let d := dict_write (refs_dict s) name v in
      run b k (mkSession (updated s) (proto d) (with_refs (fun _ => own d) (world s)))
  | RefsDelete name k =>
      run b k (mkSession (updated s) (refs_proto s) (with_refs (delete name) (world s)))
  | TryCatch body k => run b k (run b body s).1
  end.

End Proto.

(** ** Notions for the inherited names *)

(** A default the provider's loop can register: its key is no inherited
    name. *)
Definition registrable (kd : string * value) : Prop := Proto.inherited kd.1 = false.

#[global] Instance registrable_dec kd : Decision (registrable kd).
Proof. unfold registrable. apply _. Defined.

(** What [resolve] gives, read as what [Proto.resolve] gives for an
    entry whose handle is an own property of [atoms]. *)
Definition own_result (r : World * result (string * RecoilValue))
  : World * result (string * Proto.slot RecoilValue) :=
  (r.1, match r.2 with
        | Ok (key, a) => Ok (key, Proto.Own a)
        | Throw e => Throw e
        end).

(** A session of the first reading, seen in the second: [updated] and
    [refs] with the prototype they are created with. *)
Definition shadow_session (s : Session) : Proto.Session :=
  Proto.mkSession (Proto.mkDict (updated s) Proto.ObjectPrototype)
    Proto.ObjectPrototype (world s).

(** [atoms] has no own property under an inherited name. *)
Definition plain_registry (w : World) : Prop :=
  forall k, Proto.inherited k = true -> atoms w !! k = None.

(** Nothing [s] holds of what was written is gone in [s']: every own
    entry of the shadow map and every written cell value of every root
    is still there, with this or another value. *)
Definition no_write_undone (s s' : Proto.Session) : Prop :=
  (forall k, is_Some (Proto.own (Proto.updated s) !! k) ->
             is_Some (Proto.own (Proto.updated s') !! k)) /\
  (forall sc st k, stores (Proto.world s) !! sc = Some st -> is_Some (st !! k) ->
     exists st', stores (Proto.world s') !! sc = Some st' /\ is_Some (st' !! k)).

(** * Properties *)

(** ** The shadow map: [get] after [set] *)

Section Shadow.

Variable b : Binding.

Lemma get_updated s key v :
  updated s !! key = Some v -> defined v = true -> get b s key = v.
Proof.
  intros Hk Hv. unfold get, prop. rewrite Hk. simpl. by rewrite Hv.
Qed.

Lemma get_fallback s key :
  defined (prop (updated s) key) = false -> get b s key = prop (dollar b) key.
Proof. intros H. unfold get. by rewrite H. Qed.

Lemma set_updated v key s :
  updated (set b v key s).1 = <[key := v]> (updated s).
Proof.
  unfold set. destruct (setters b !! key) as [a|]; [|done].
  by destruct a.
Qed.

Lemma set_atom v key k s :
  setters b !! key = Some (RecoilState k) ->
  set b v key s =
    (mkSession (<[key := v]> (updated s))
       (with_stores (alter <[k := v]> (scope b)) (world s)), Ok tt).
Proof. intros H. unfold set. by rewrite H. Qed.

Lemma set_selector v key k s :
  setters b !! key = Some (RecoilValueReadOnly k) ->
  set b v key s =
    (mkSession (<[key := v]> (updated s)) (world s), Throw ReadOnlyRecoilValue).
Proof. intros H. unfold set. by rewrite H. Qed.

Lemma get_after_set v key s :
  get b (set b v key s).1 key = if defined v then v else prop (dollar b) key.
Proof.
  unfold get, prop. rewrite set_updated, lookup_insert_eq. simpl.
  by destruct (defined v).
Qed.

End Shadow.

(** ** Running composed actions *)

Section Run.

Variable b : Binding.

Lemma run_bind a f s :
  run b (bind a f) s =
    match run b a s with
    | (s', Ok r) => run b (f r) s'
    | (s', Throw e) => (s', Throw e)
    end.
Proof.
  revert s. induction a as [r|e|key k IH|v key k IH|func IHf args k IH
                           |name k IH|name v k IH|body IHb k IH]; intros s; simpl.
  - done.
  - done.
  - apply IH.
  - destruct (set b v key s) as [s' [[]|e]]; [apply IH|done].
  - destruct (run b (fn func args) s) as [s' [r|e]]; [apply IH|done].
  - apply IH.
  - apply IH.
  - apply IH.
Qed.

Lemma run_inline a s : run b (inline a) s = run b a s.
Proof.
  revert s. induction a as [r|e|key k IH|v key k IH|func IHf args k IH
                           |name k IH|name v k IH|body IHb k IH]; intros s; simpl.
  - done.
  - done.
  - apply IH.
  - destruct (set b v key s) as [s' [[]|e]]; [apply IH|done].
  - rewrite run_bind. unfold fn at 1. rewrite IHf. fold (fn func args).
    destruct (run b (fn func args) s) as [s' [r|e]]; [apply IH|done].
  - apply IH.
  - apply IH.
  - by rewrite IHb, IH.
Qed.

End Run.

Lemma fn_free_bind a f :
  fn_free a -> (forall r, fn_free (f r)) -> fn_free (bind a f).
Proof.
  intros Ha Hf. induction Ha; simpl; try (constructor; auto); auto.
Qed.

Lemma fn_free_inline a : fn_free (inline a).
Proof.
  induction a as [r|e|key k IH|v key k IH|func IHf args k IH
                 |name k IH|name v k IH|body IHb k IH]; simpl;
    try (constructor; auto).
  apply fn_free_bind; [apply IHf | apply IH].
Qed.

(** ** The registry only grows *)

Section Registry.

Lemma keeps_refl w : keeps w w.
Proof. by intros k a H. Qed.

Lemma keeps_trans w1 w2 w3 : keeps w1 w2 -> keeps w2 w3 -> keeps w1 w3.
Proof.
  intros H12 H23 k a H. destruct (H12 k a H) as [Ha Hn].
  destruct (H23 k a Ha) as [Ha' Hn']. split; [done|congruence].
Qed.

Lemma keeps_register key a' n (w : World) :
  atoms w !! key = None ->
  keeps w (with_atoms <[key := a']> (with_nodes <[key := n]> w)).
Proof.
  intros Hnone k a H. simpl.
  assert (key <> k) by congruence.
  by rewrite !lookup_insert_ne.
Qed.

Lemma Path_step_keeps w kd : keeps w (Path_step w kd).
Proof.
  unfold Path_step. destruct (atoms w !! kd.1) eqn:E; [apply keeps_refl|].
  simpl. by apply keeps_register.
Qed.

Lemma Path_keeps defaults w : keeps w (Path defaults w).
Proof.
  unfold Path. revert w. induction defaults as [|kd ds IH]; intros w; simpl.
  - apply keeps_refl.
  - eapply keeps_trans; [apply Path_step_keeps | apply IH].
Qed.

Lemma resolve_leaf_keeps key w : keeps w (resolve_leaf key w).1.
Proof.
  unfold resolve_leaf. destruct (atoms w !! key) eqn:E; simpl; [apply keeps_refl|].
  by apply keeps_register.
Qed.

Lemma resolve_computed_keeps l v g w : keeps w (resolve_computed l v g w).1.
Proof.
  unfold resolve_computed. simpl.
  destruct (atoms w !! spec_key v) eqn:E; simpl.
  - by intros k a H.
  - intros k a H. simpl. assert (spec_key v <> k) by congruence.
    by rewrite !lookup_insert_ne.
Qed.

Lemma resolve_keeps v w : keeps w (resolve v w).1.
Proof.
  destruct v as [k|l]; simpl.
  - pose proof (resolve_leaf_keeps k w) as H.
    by destruct (resolve_leaf k w).
  - destruct (heap w !! l) as [o|]; [|apply keeps_refl].
    destruct (spec_get o) as [g|].
    + pose proof (resolve_computed_keeps l o g w) as H.
      by destruct (resolve_computed l o g w).
    + pose proof (resolve_leaf_keeps (spec_key o) w) as H.
      by destruct (resolve_leaf (spec_key o) w).
Qed.

Lemma Injection_loop_keeps fuel ents b w : keeps w (Injection_loop fuel ents b w).1.
Proof.
  revert b w. induction ents as [|v rest IH]; intros b w; simpl.
  - apply keeps_refl.
  - pose proof (resolve_keeps v w) as Hr.
    destruct (resolve v w) as [w1 [[key a]|e]]; simpl in *; [|done].
    unfold useRecoilState.
    destruct (useRecoilValue fuel (scope b) a w1); simpl; [|done].
    eapply keeps_trans; [apply Hr | apply IH].
Qed.

End Registry.

(** ** Which keys a render binds *)

Section BoundKeys.

Lemma resolve_leaf_key key w : (resolve_leaf key w).2.1 = key.
Proof. unfold resolve_leaf. by destruct (atoms w !! key). Qed.

Lemma resolve_leaf_heap key w : heap (resolve_leaf key w).1 = heap w.
Proof. unfold resolve_leaf. by destruct (atoms w !! key). Qed.

Lemma resolve_computed_key l v g w : (resolve_computed l v g w).2.1 = spec_key v.
Proof. unfold resolve_computed. simpl. by destruct (atoms w !! spec_key v). Qed.

Lemma resolve_computed_heap l v g w :
  heap (resolve_computed l v g w).1 =
    <[l := mkSpec (spec_key v) (spec_default v) (Some (Wrapped g)) (spec_id v)]> (heap w).
Proof. unfold resolve_computed. simpl. by destruct (atoms w !! spec_key v). Qed.

Lemma resolve_key v w w' key a :
  resolve v w = (w', Ok (key, a)) -> entry_key (heap w) v = Some key.
Proof.
  destruct v as [k|l]; simpl.
  - pose proof (resolve_leaf_key k w) as H.
    destruct (resolve_leaf k w) as [w1 [k1 a1]]. simpl in H. congruence.
  - destruct (heap w !! l) as [o|]; [|done]. simpl.
    destruct (spec_get o) as [g|].
    + pose proof (resolve_computed_key l o g w) as H.
      destruct (resolve_computed l o g w) as [w1 [k1 a1]]. simpl in H. congruence.
    + pose proof (resolve_leaf_key (spec_key o) w) as H.
      destruct (resolve_leaf (spec_key o) w) as [w1 [k1 a1]]. simpl in H. congruence.
Qed.

Lemma resolve_entry_key v w e :
  entry_key (heap (resolve v w).1) e = entry_key (heap w) e.
Proof.
  destruct v as [k|l]; simpl.
  - pose proof (resolve_leaf_heap k w) as H.
    destruct (resolve_leaf k w) as [w1 ka]. simpl in *. by rewrite H.
  - destruct (heap w !! l) as [o|] eqn:El; [|done].
    destruct (spec_get o) as [g|].
    + pose proof (resolve_computed_heap l o g w) as H.
      destruct (resolve_computed l o g w) as [w1 ka]. simpl in *. rewrite H.
      destruct e as [k'|l']; [done|]. simpl.
      destruct (decide (l = l')) as [->|Hne].
      * by rewrite lookup_insert_eq, El.
      * by rewrite lookup_insert_ne.
    + pose proof (resolve_leaf_heap (spec_key o) w) as H.
      destruct (resolve_leaf (spec_key o) w) as [w1 ka]. simpl in *. by rewrite H.
Qed.

Lemma Injection_loop_scope fuel ents b w w' b' :
  Injection_loop fuel ents b w = (w', Ok b') -> scope b' = scope b.
Proof.
  revert b w. induction ents as [|v rest IH]; intros b w Hrun; simpl in Hrun.
  - by inversion Hrun.
  - destruct (resolve v w) as [w1 [[key a]|e]]; [|done].
    unfold useRecoilState in Hrun.
    destruct (useRecoilValue fuel (scope b) a w1) as [x|e]; [|done].
    by apply IH in Hrun.
Qed.

End BoundKeys.

(** ** The spec object is rewritten at every render *)

Section Rewrap.

Lemma rewrap_iter n o g :
  spec_get o = Some g ->
  Nat.iter n rewrap o =
    mkSpec (spec_key o) (spec_default o) (Some (Nat.iter n Wrapped g)) (spec_id o).
Proof.
  intros Hg. induction n as [|n IH]; simpl.
  - destruct o; simpl in *; by subst.
  - rewrite IH. done.
Qed.

Lemma resolve_heap v w l :
  heap (resolve v w).1 !! l =
    if decide (v = Obj l) then rewrap <$> heap w !! l else heap w !! l.
Proof.
  destruct v as [k|l']; simpl.
  - pose proof (resolve_leaf_heap k w) as H.
    destruct (resolve_leaf k w) as [w1 ka]. simpl in *. rewrite H.
    by destruct (decide (Key k = Obj l)).
  - destruct (heap w !! l') as [o|] eqn:El.
    + destruct (spec_get o) as [g|] eqn:Eg.
      * pose proof (resolve_computed_heap l' o g w) as H.
        destruct (resolve_computed l' o g w) as [w1 ka]. simpl in *. rewrite H.
        destruct (decide (Obj l' = Obj l)) as [[= ->]|Hne].
        -- rewrite lookup_insert_eq, El. simpl. unfold rewrap. by rewrite Eg.
        -- rewrite lookup_insert_ne; [done|congruence].
      * pose proof (resolve_leaf_heap (spec_key o) w) as H.
        destruct (resolve_leaf (spec_key o) w) as [w1 ka]. simpl in *. rewrite H.
        destruct (decide (Obj l' = Obj l)) as [[= ->]|Hne]; [|done].
        rewrite El. simpl. unfold rewrap. by rewrite Eg.
    + simpl. destruct (decide (Obj l' = Obj l)) as [[= ->]|Hne]; [|done].
      by rewrite El.
Qed.

Lemma Injection_loop_heap fuel ents b w w' b' l :
  Injection_loop fuel ents b w = (w', Ok b') ->
  heap w' !! l = Nat.iter (occurrences l ents) rewrap <$> heap w !! l.
Proof.
  revert b w. induction ents as [|v rest IH]; intros b w Hrun; simpl in Hrun.
  - inversion Hrun; subst. simpl. by destruct (heap w' !! l).
  - pose proof (resolve_heap v w l) as Hh.
    destruct (resolve v w) as [w1 [[key a]|e]]; [|done]. simpl in Hh.
    unfold useRecoilState in Hrun.
    destruct (useRecoilValue fuel (scope b) a w1) as [x|e]; [|done].
    apply IH in Hrun. rewrite Hrun, Hh. unfold occurrences. rewrite filter_cons.
    destruct (decide (v = Obj l)) as [->|Hne]; simpl.
    + rewrite <- option_fmap_compose.
      destruct (heap w !! l) as [o|]; [|done].
      unfold fmap, option_fmap, option_map, compose. f_equal.
      symmetry. apply Nat.iter_succ_r.
    + done.
Qed.

Lemma renders_heap n fuel ents sc w w' l :
  renders n fuel ents sc w = (w', Ok tt) ->
  heap w' !! l = Nat.iter (n * occurrences l ents) rewrap <$> heap w !! l.
Proof.
  revert w. induction n as [|n IH]; intros w Hrun; simpl in Hrun.
  - inversion Hrun; subst. simpl. by destruct (heap w' !! l).
  - destruct (inject ents fuel sc w) as [w1 [b1|e]] eqn:E; [|done].
    apply IH in Hrun. rewrite Hrun.
    unfold inject, Injection in E. apply Injection_loop_heap with (l := l) in E.
    rewrite E, <- option_fmap_compose. simpl.
    destruct (heap w !! l) as [o|]; [|done]. simpl. f_equal.
    by rewrite Nat.add_comm, Nat.iter_add.
Qed.

End Rewrap.

(** ** What a render under one root can see, and what an action can change *)

Section Isolation.

Lemma same_view_refl sc w : same_view sc w w.
Proof. by repeat split. Qed.

Lemma same_view_trans sc w1 w2 w3 :
  same_view sc w1 w2 -> same_view sc w2 w3 -> same_view sc w1 w3.
Proof.
  intros (?&?&?&?) (?&?&?&?). repeat split; congruence.
Qed.

Lemma setRecoilState_view sa sb a v w :
  sa <> sb -> same_view sb w (setRecoilState sa a v w).1.
Proof.
  intros Hne. destruct a as [k|k]; simpl; [|apply same_view_refl].
  repeat split; simpl. by rewrite list_lookup_alter_ne.
Qed.

Lemma set_view b sb v key s :
  scope b <> sb -> same_view sb (world s) (world (set b v key s).1).
Proof.
  intros Hne. unfold set. destruct (setters b !! key) as [a|]; simpl.
  - pose proof (setRecoilState_view (scope b) sb a v (world s) Hne) as H.
    by destruct (setRecoilState (scope b) a v (world s)).
  - apply same_view_refl.
Qed.

Lemma run_view b sb a s :
  scope b <> sb -> same_view sb (world s) (world (run b a s).1).
Proof.
  intros Hne. revert s.
  induction a as [r|e|key k IH|v key k IH|func IHf args k IH
                 |name k IH|name v k IH|body IHb k IH]; intros s; simpl.
  - apply same_view_refl.
  - apply same_view_refl.
  - apply IH.
  - pose proof (set_view b sb v key s Hne) as Hs.
    destruct (set b v key s) as [s' [[]|e]]; simpl in *; [|done].
    eapply same_view_trans; [exact Hs | apply IH].
  - pose proof (IHf (mkBag args (or_else (first args) empty_object)) s) as Hf.
    fold (fn func args) in Hf.
    destruct (run b (fn func args) s) as [s' [r|e]]; simpl in *; [|done].
    eapply same_view_trans; [exact Hf | apply IH].
  - apply IH.
  - eapply same_view_trans; [|apply IH]. by repeat split.
  - eapply same_view_trans; [apply IHb | apply IH].
Qed.

Lemma useRecoilValue_view fuel sc a w w' :
  same_view sc w w' -> useRecoilValue fuel sc a w = useRecoilValue fuel sc a w'.
Proof.
  intros (Ha&Hn&_&Hs). unfold useRecoilValue. by rewrite Ha, Hn, Hs.
Qed.

Lemma resolve_stores v w : stores (resolve v w).1 = stores w.
Proof.
  destruct v as [k|l]; simpl.
  - unfold resolve_leaf. by destruct (atoms w !! k).
  - destruct (heap w !! l) as [o|]; [|done].
    destruct (spec_get o) as [g|].
    + unfold resolve_computed. simpl. by destruct (atoms w !! spec_key o).
    + unfold resolve_leaf. by destruct (atoms w !! spec_key o).
Qed.

Lemma resolve_view sc v w w' :
  same_view sc w w' ->
  (resolve v w).2 = (resolve v w').2 /\ same_view sc (resolve v w).1 (resolve v w').1.
Proof.
  intros (Ha&Hn&Hh&Hs).
  destruct w as [at1 rf1 nd1 st1 hp1], w' as [at2 rf2 nd2 st2 hp2].
  simpl in *. subst at2 nd2 hp2.
  destruct v as [k|l]; simpl.
  - unfold resolve_leaf. simpl. destruct (at1 !! k); simpl; by repeat split.
  - destruct (hp1 !! l) as [o|]; simpl; [|by repeat split].
    destruct (spec_get o) as [g|].
    + unfold resolve_computed. simpl. destruct (at1 !! spec_key o); simpl; by repeat split.
    + unfold resolve_leaf. simpl. destruct (at1 !! spec_key o); simpl; by repeat split.
Qed.

Lemma Injection_loop_view fuel ents b w w' :
  same_view (scope b) w w' ->
  (Injection_loop fuel ents b w).2 = (Injection_loop fuel ents b w').2.
Proof.
  revert b w w'. induction ents as [|v rest IH]; intros b w w' Hv; simpl; [done|].
  destruct (resolve_view (scope b) v w w' Hv) as [Hr Hv'].
  destruct (resolve v w) as [w1 r1], (resolve v w') as [w1' r1']. simpl in *. subst r1'.
  destruct r1 as [[key a]|e]; [|done].
  unfold useRecoilState.
  rewrite <- (useRecoilValue_view fuel (scope b) a w1 w1' Hv').
  destruct (useRecoilValue fuel (scope b) a w1) as [x|e]; [|done].
  by apply IH.
Qed.

Lemma Injection_view fuel ents sc w w' :
  same_view sc w w' -> (Injection fuel ents sc w).2 = (Injection fuel ents sc w').2.
Proof. intros Hv. by apply Injection_loop_view. Qed.

Lemma Path_stores defaults w : stores (Path defaults w) = stores w.
Proof.
  unfold Path. revert w. induction defaults as [|kd ds IH]; intros w; simpl; [done|].
  rewrite IH. unfold Path_step. by destruct (atoms w !! kd.1).
Qed.

Lemma Roid_isolated defaults override parent w :
  override <> Some false ->
  (Roid defaults override parent w).2 = length (stores w) /\
  stores (Roid defaults override parent w).1 = stores w ++ [∅].
Proof.
  intros Hov. unfold Roid.
  assert (default true override = true) as ->.
  { destruct override as [[]|]; simpl; congruence. }
  unfold RecoilRoot. destruct parent; simpl; by rewrite Path_stores.
Qed.

End Isolation.

(** ** One entry at a time *)

Section Entries.

Lemma resolve_registered v w key a :
  entry_key (heap w) v = Some key -> atoms w !! key = Some a ->
  exists w1, resolve v w = (w1, Ok (key, a)) /\
    atoms w1 = atoms w /\ nodes w1 = nodes w /\ stores w1 = stores w /\
    forall e, entry_key (heap w1) e = entry_key (heap w) e.
Proof.
  intros Hk Ha.
  pose proof (resolve_entry_key v w) as Hheap.
  destruct v as [k|l]; simpl in *.
  - injection Hk as ->. unfold resolve_leaf in *. rewrite Ha in *. by eexists.
  - destruct (heap w !! l) as [o|] eqn:El; [|done]. simpl in Hk. injection Hk as <-.
    destruct (spec_get o) as [g|].
    + unfold resolve_computed in *. simpl in *. rewrite Ha in *. by eexists.
    + unfold resolve_leaf in *. rewrite Ha in *. by eexists.
Qed.

Lemma resolve_fresh_leaf v w key :
  leaf_entry (heap w) v key -> atoms w !! key = None ->
  resolve v w =
    (with_atoms <[key := RecoilState key]> (with_nodes <[key := AtomNode VNull]> w),
     Ok (key, RecoilState key)).
Proof.
  intros Hv Ha. destruct v as [k|l]; simpl in *.
  - subst k. unfold resolve_leaf. by rewrite Ha.
  - destruct Hv as (o & -> & -> & <-). unfold resolve_leaf. by rewrite Ha.
Qed.

Lemma leaf_entry_key h v key : leaf_entry h v key -> entry_key h v = Some key.
Proof.
  destruct v as [k|l]; simpl; [congruence|].
  by intros (o & -> & _ & <-).
Qed.

Lemma read_atom fuel sc a d store w :
  nodes w !! rv_key a = Some (AtomNode d) -> stores w !! sc = Some store ->
  useRecoilValue fuel sc a w = Ok (default d (store !! rv_key a)).
Proof.
  intros Hn Hs. unfold useRecoilValue. rewrite Hs.
  destruct fuel; simpl; by rewrite Hn.
Qed.

Lemma loop_fresh_leaf fuel v rest b w key store :
  leaf_entry (heap w) v key -> atoms w !! key = None ->
  stores w !! scope b = Some store ->
  Injection_loop fuel (v :: rest) b w =
    Injection_loop fuel rest
      (mkBinding (<[key := default VNull (store !! key)]> (dollar b))
                 (<[key := RecoilState key]> (setters b)) (scope b))
      (with_atoms <[key := RecoilState key]> (with_nodes <[key := AtomNode VNull]> w)).
Proof.
  intros Hv Ha Hs. simpl. rewrite (resolve_fresh_leaf v w key Hv Ha).
  unfold useRecoilState.
  rewrite (read_atom fuel (scope b) (RecoilState key) VNull store); [done| |done].
  simpl. by rewrite lookup_insert_eq.
Qed.

End Entries.

(** ** What a derivation is given *)

Section Derivation.

Variable registry : gmap string RecoilValue.
Variable engine_get : getter.

Lemma call_getfn_depth g get :
  call_getfn registry g get = user_fn g (Nat.iter (depth g) (lookup_or_pass registry) get).
Proof.
  revert get. induction g as [f|g IH]; intros get; simpl; [done|].
  rewrite IH. by rewrite <- Nat.iter_succ_r.
Qed.

Lemma lookup_or_pass_registered s a :
  registry !! s = Some a ->
  lookup_or_pass registry engine_get (VStr s) = engine_get (VRecoil a).
Proof. intros Hs. unfold lookup_or_pass. simpl. by rewrite Hs. Qed.

Lemma lookup_or_pass_other x :
  (forall s, x = VStr s -> registry !! s = None) ->
  lookup_or_pass registry engine_get x = engine_get x.
Proof.
  intros Hx. unfold lookup_or_pass.
  destruct (registry !! to_property_key x) as [a|] eqn:E; [|done].
  destruct x; simpl; try done.
  simpl in E. by rewrite (Hx _ eq_refl) in E.
Qed.

Lemma lookup_or_pass_handle a :
  lookup_or_pass registry engine_get (VRecoil a) = engine_get (VRecoil a).
Proof. apply lookup_or_pass_other. intros s Hs. discriminate. Qed.

(** Wrapping once more changes nothing: the handle the outer wrapper
    passes on is not a string, so the inner ones pass it through. *)
Lemma lookup_or_pass_iter n x :
  Nat.iter (S n) (lookup_or_pass registry) engine_get x
    = lookup_or_pass registry engine_get x.
Proof.
  induction n as [|n IH] in x |- *; [done|].
  change (Nat.iter (S (S n)) (lookup_or_pass registry) engine_get x)
    with (lookup_or_pass registry
            (Nat.iter (S n) (lookup_or_pass registry) engine_get) x).
  unfold lookup_or_pass at 1.
  destruct (registry !! to_property_key x) as [a|] eqn:E; [|apply IH].
  destruct (is_String x) eqn:Es; [|apply IH].
  rewrite IH, lookup_or_pass_handle.
  destruct x; try discriminate. simpl in E.
  symmetry. by apply lookup_or_pass_registered.
Qed.

End Derivation.

(** ** The inherited names *)

Section Inherited.

Lemma read_own {A : Type} (o : gmap string A) k a :
  o !! k = Some a -> Proto.read o k = Proto.Own a.
Proof. intros H. unfold Proto.read. by rewrite H. Qed.

Lemma read_plain {A : Type} (o : gmap string A) k :
  Proto.inherited k = false ->
  Proto.read o k = match o !! k with Some a => Proto.Own a | None => Proto.Absent end.
Proof. intros H. unfold Proto.read. by rewrite H. Qed.

Lemma read_inherited {A : Type} (o : gmap string A) k :
  o !! k = None -> Proto.inherited k = true -> Proto.read o k = Proto.Inherited k.
Proof. intros H1 H2. unfold Proto.read. by rewrite H1, H2. Qed.

Lemma Proto_Path_step w kd :
  Proto.Path_step w kd = if Proto.inherited kd.1 then w else Path_step w kd.
Proof.
  unfold Proto.Path_step, Path_step, Proto.read.
  destruct (atoms w !! kd.1), (Proto.inherited kd.1); done.
Qed.

Lemma Proto_Path defaults w :
  Proto.Path defaults w = Path (filter registrable defaults) w.
Proof.
  unfold Proto.Path, Path. revert w.
  induction defaults as [|kd ds IH]; intros w; [done|].
  rewrite filter_cons. simpl. rewrite Proto_Path_step, IH.
  destruct (decide (registrable kd)) as [H|H]; unfold registrable in H.
  - by rewrite H.
  - apply not_false_is_true in H. by rewrite H.
Qed.

Lemma Proto_Roid defaults override parent w :
  Proto.Roid defaults override parent w = Roid (filter registrable defaults) override parent w.
Proof.
  unfold Proto.Roid, Roid. destruct (RecoilRoot (default true override) parent w).
  by rewrite Proto_Path.
Qed.

Lemma filter_registrable_one k v :
  filter registrable [(k, v)] = if Proto.inherited k then [] else [(k, v)].
Proof.
  rewrite filter_cons.
  destruct (decide (registrable (k, v))) as [H|H]; unfold registrable in H; simpl in H.
  - by rewrite H.
  - apply not_false_is_true in H. by rewrite H.
Qed.

Lemma Proto_resolve_own v w :
  (forall k, entry_key (heap w) v = Some k ->
     is_Some (atoms w !! k) \/ Proto.inherited k = false) ->
  Proto.resolve v w = own_result (resolve v w).
Proof.
  intros Hk. unfold own_result.
  assert (forall key, is_Some (atoms w !! key) \/ Proto.inherited key = false ->
            Proto.resolve_leaf key w =
              ((resolve_leaf key w).1, ((resolve_leaf key w).2.1,
                                        Proto.Own (resolve_leaf key w).2.2))) as Hleaf.
  { intros key H. unfold Proto.resolve_leaf, resolve_leaf, Proto.read.
    destruct (atoms w !! key) as [a|] eqn:Ea; simpl.
    - by rewrite Ea.
    - destruct H as [[? [=]]| ->]. simpl. by rewrite lookup_insert_eq. }
  destruct v as [k|l]; unfold Proto.resolve, resolve.
  - rewrite (Hleaf k) by (by apply Hk). by destruct (resolve_leaf k w) as [w1 [k1 a1]].
  - unfold entry_key in Hk. destruct (heap w !! l) as [o|]; [|done].
    specialize (Hk _ eq_refl).
    destruct (spec_get o) as [g|].
    + unfold Proto.resolve_computed, resolve_computed, Proto.read. simpl.
      destruct (atoms w !! spec_key o) as [a|] eqn:Ea; simpl.
      * by rewrite Ea.
      * destruct Hk as [[? [=]]| ->]. simpl. by rewrite lookup_insert_eq.
    + rewrite (Hleaf (spec_key o)) by done.
      by destruct (resolve_leaf (spec_key o) w) as [w1 [k1 a1]].
Qed.

Lemma Proto_resolve_inherited v w k :
  entry_key (heap w) v = Some k -> atoms w !! k = None -> Proto.inherited k = true ->
  exists w1,
    Proto.resolve v w = (w1, Ok (k, Proto.Inherited k)) /\
    atoms w1 = atoms w /\ nodes w1 = nodes w /\ stores w1 = stores w /\
    refs w1 = refs w /\ heap w1 = heap (resolve v w).1.
Proof.
  intros Hk Ha Hi.
  assert (Proto.resolve_leaf k w = (w, (k, Proto.Inherited k))) as Hleaf.
  { unfold Proto.resolve_leaf. rewrite (read_inherited _ _ Ha Hi). simpl.
    by rewrite (read_inherited _ _ Ha Hi). }
  destruct v as [k0|l]; unfold Proto.resolve, resolve.
  - injection Hk as ->. rewrite Hleaf. exists w. repeat split; try done.
    pose proof (resolve_leaf_heap k w) as H. by destruct (resolve_leaf k w).
  - unfold entry_key in Hk. destruct (heap w !! l) as [o|]; [|done].
    simpl in Hk. injection Hk as <-.
    destruct (spec_get o) as [g|].
    + unfold Proto.resolve_computed. simpl. rewrite (read_inherited _ _ Ha Hi). simpl.
      rewrite (read_inherited _ _ Ha Hi).
      eexists. split; [reflexivity|]. repeat split; try done.
      pose proof (resolve_computed_heap l o g w) as H.
      by destruct (resolve_computed l o g w).
    + rewrite Hleaf. exists w. repeat split; try done.
      pose proof (resolve_leaf_heap (spec_key o) w) as H.
      by destruct (resolve_leaf (spec_key o) w).
Qed.

Lemma Proto_resolve_cases v w :
  Proto.resolve v w = own_result (resolve v w) \/
  exists k w1,
    entry_key (heap w) v = Some k /\ atoms w !! k = None /\ Proto.inherited k = true /\
    Proto.resolve v w = (w1, Ok (k, Proto.Inherited k)) /\
    atoms w1 = atoms w /\ nodes w1 = nodes w /\ stores w1 = stores w /\
    refs w1 = refs w /\ heap w1 = heap (resolve v w).1.
Proof.
  destruct (entry_key (heap w) v) as [k|] eqn:Ek.
  - destruct (atoms w !! k) as [a|] eqn:Ea.
    + left. apply Proto_resolve_own. intros k'. rewrite Ek. intros [= <-].
      left. by eexists.
    + destruct (Proto.inherited k) eqn:Ei.
      * right. destruct (Proto_resolve_inherited v w k Ek Ea Ei) as (w1 & H).
        by exists k, w1.
      * left. apply Proto_resolve_own. intros k'. rewrite Ek. intros [= <-]. by right.
  - left. apply Proto_resolve_own. intros k'. rewrite Ek. intros [=].
Qed.

Lemma Proto_resolve_heap v w : heap (Proto.resolve v w).1 = heap (resolve v w).1.
Proof.
  destruct (Proto_resolve_cases v w) as [->|(k & w1 & _ & _ & _ & -> & _ & _ & _ & _ & H)];
    done.
Qed.

Lemma Proto_resolve_entry_key v w e :
  entry_key (heap (Proto.resolve v w).1) e = entry_key (heap w) e.
Proof. rewrite Proto_resolve_heap. apply resolve_entry_key. Qed.

Lemma Proto_resolve_key v w w' key a :
  Proto.resolve v w = (w', Ok (key, a)) -> entry_key (heap w) v = Some key.
Proof.
  destruct (Proto_resolve_cases v w) as [->|(k & w1 & Hk & _ & _ & -> & _)].
  - unfold own_result. pose proof (resolve_key v w) as H.
    destruct (resolve v w) as [w1 [[k1 a1]|e]]; simpl; [|done].
    intros [= <- <- <-]. by eapply H.
  - by intros [= <- <- <-].
Qed.

Lemma Proto_resolve_keeps v w : keeps w (Proto.resolve v w).1.
Proof.
  destruct (Proto_resolve_cases v w)
    as [->|(k & w1 & _ & _ & _ & -> & Ha & Hn & _)]; simpl.
  - apply resolve_keeps.
  - intros k' a. by rewrite Ha, Hn.
Qed.

Lemma Proto_resolve_values v w :
  stores (Proto.resolve v w).1 = stores w /\ refs (Proto.resolve v w).1 = refs w.
Proof.
  destruct (Proto_resolve_cases v w)
    as [->|(k & w1 & _ & _ & _ & -> & _ & _ & Hs & Hr & _)]; simpl; [|done].
  split; [apply resolve_stores|].
  destruct v as [k|l]; simpl.
  - unfold resolve_leaf. by destruct (atoms w !! k).
  - destruct (heap w !! l) as [o|]; [|done].
    destruct (spec_get o) as [g|].
    + unfold resolve_computed. simpl. by destruct (atoms w !! spec_key o).
    + unfold resolve_leaf. by destruct (atoms w !! spec_key o).
Qed.

Lemma Proto_Injection_loop_keeps fuel ents b w :
  keeps w (Proto.Injection_loop fuel ents b w).1.
Proof.
  revert b w. induction ents as [|v rest IH]; intros b w; simpl.
  - apply keeps_refl.
  - pose proof (Proto_resolve_keeps v w) as Hr.
    destruct (Proto.resolve v w) as [w1 [[key a]|e]]; simpl in *; [|done].
    destruct (Proto.useRecoilState fuel (scope b) a w1) as [[x st]|e]; simpl; [|done].
    eapply keeps_trans; [apply Hr | apply IH].
Qed.

Lemma Proto_read_value fuel sc a d store w :
  nodes w !! rv_key a = Some (AtomNode d) -> stores w !! sc = Some store ->
  Proto.useRecoilValue fuel sc a w = Ok (default d (store !! rv_key a)).
Proof.
  intros Hn Hs. unfold Proto.useRecoilValue. rewrite Hs.
  destruct fuel; simpl; by rewrite Hn.
Qed.

Lemma Proto_loop_registered_atom fuel v rest b w key a d store :
  entry_key (heap w) v = Some key -> atoms w !! key = Some a ->
  nodes w !! rv_key a = Some (AtomNode d) -> stores w !! scope b = Some store ->
  exists w1,
    Proto.Injection_loop fuel (v :: rest) b w =
      Proto.Injection_loop fuel rest
        (mkBinding (<[key := default d (store !! rv_key a)]> (dollar b))
                   (<[key := a]> (setters b)) (scope b)) w1 /\
    atoms w1 = atoms w /\ nodes w1 = nodes w /\ stores w1 = stores w /\
    forall e, entry_key (heap w1) e = entry_key (heap w) e.
Proof.
  intros Hk Ha Hn Hs.
  destruct (resolve_registered v w key a Hk Ha) as (w1 & Hr & Hat & Hnd & Hst & Hh).
  exists w1. repeat split; try done.
  simpl. rewrite Proto_resolve_own by (intros k; rewrite Hk; intros [= <-]; left; by eexists).
  rewrite Hr. unfold own_result. simpl.
  rewrite (Proto_read_value fuel (scope b) a d store w1); [done| |]; congruence.
Qed.

Lemma Proto_loop_fresh_leaf fuel v rest b w key store :
  leaf_entry (heap w) v key -> atoms w !! key = None -> Proto.inherited key = false ->
  stores w !! scope b = Some store ->
  Proto.Injection_loop fuel (v :: rest) b w =
    Proto.Injection_loop fuel rest
      (mkBinding (<[key := default VNull (store !! key)]> (dollar b))
                 (<[key := RecoilState key]> (setters b)) (scope b))
      (with_atoms <[key := RecoilState key]> (with_nodes <[key := AtomNode VNull]> w)).
Proof.
  intros Hv Ha Hi Hs. simpl.
  rewrite Proto_resolve_own
    by (intros k; rewrite (leaf_entry_key _ _ _ Hv); intros [= <-]; by right).
  rewrite (resolve_fresh_leaf v w key Hv Ha). unfold own_result. simpl.
  rewrite (Proto_read_value fuel (scope b) (RecoilState key) VNull store); [done| |done].
  simpl. by rewrite lookup_insert_eq.
Qed.

Lemma Proto_loop_inherited fuel v rest b w key :
  entry_key (heap w) v = Some key -> atoms w !! key = None -> Proto.inherited key = true ->
  (Proto.Injection_loop fuel (v :: rest) b w).2 = Throw InvalidRecoilValue /\
  atoms (Proto.Injection_loop fuel (v :: rest) b w).1 = atoms w /\
  nodes (Proto.Injection_loop fuel (v :: rest) b w).1 = nodes w.
Proof.
  intros Hk Ha Hi.
  destruct (Proto_resolve_inherited v w key Hk Ha Hi) as (w1 & Hr & Hat & Hnd & _).
  simpl. rewrite Hr. simpl. done.
Qed.

Lemma Proto_Injection_loop_unbound fuel ents b w w' b' k :
  Proto.Injection_loop fuel ents b w = (w', Ok b') ->
  Forall (fun v => entry_key (heap w) v <> Some k) ents ->
  dollar b !! k = None -> setters b !! k = None ->
  dollar b' !! k = None /\ setters b' !! k = None.
Proof.
  revert b w. induction ents as [|v rest IH]; intros b w Hrun Hk Hd Hs; simpl in Hrun.
  - by inversion Hrun; subst.
  - apply Forall_cons in Hk as [Hv Hrest].
    pose proof (Proto_resolve_key v w) as Hkey.
    pose proof (Proto_resolve_entry_key v w) as Hheap.
    destruct (Proto.resolve v w) as [w1 [[key a]|e]]; [|done]. simpl in Hheap.
    specialize (Hkey w1 key a eq_refl).
    destruct (Proto.useRecoilState fuel (scope b) a w1) as [[x st]|e]; [|done].
    assert (key <> k) by congruence.
    eapply IH; [exact Hrun| |by simpl; rewrite lookup_insert_ne
                          |by simpl; rewrite lookup_insert_ne].
    eapply Forall_impl; [exact Hrest|]. intros e He. simpl in He. by rewrite Hheap.
Qed.

End Inherited.

(** ** [get] and [set] behind the prototype *)

Section ProtoShadow.

Variable b : Binding.

Lemma inherited_proto : Proto.inherited "__proto__" = true.
Proof. reflexivity. Qed.

Lemma not_inherited_proto k : Proto.inherited k = false -> k <> "__proto__".
Proof. intros H ->. by rewrite inherited_proto in H. Qed.

Lemma Proto_dict_write_own d k v :
  k <> "__proto__" ->
  Proto.dict_write d k v = Proto.mkDict (<[k := v]> (Proto.own d)) (Proto.proto d).
Proof. intros H. unfold Proto.dict_write. by destruct (decide (k = "__proto__")). Qed.

Lemma Proto_dict_read_own d k v :
  Proto.own d !! k = Some v -> Proto.dict_read d k = Proto.Val v.
Proof. intros H. unfold Proto.dict_read. by rewrite H. Qed.

Lemma Proto_set_updated v key s :
  Proto.updated (Proto.set b v key s).1 = Proto.dict_write (Proto.updated s) key v /\
  Proto.refs_proto (Proto.set b v key s).1 = Proto.refs_proto s.
Proof.
  unfold Proto.set. destruct (Proto.read (setters b) key) as [a| |]; simpl; [|done|done].
  by destruct (setRecoilState (scope b) a v (Proto.world s)).
Qed.

Lemma Proto_set_atom v key k s :
  setters b !! key = Some (RecoilState k) ->
  Proto.set b v key s =
    (Proto.mkSession (Proto.dict_write (Proto.updated s) key v) (Proto.refs_proto s)
       (with_stores (alter <[k := v]> (scope b)) (Proto.world s)), Ok tt).
Proof. intros H. unfold Proto.set. by rewrite (read_own _ _ _ H). Qed.

Lemma Proto_set_selector v key k s :
  setters b !! key = Some (RecoilValueReadOnly k) ->
  Proto.set b v key s =
    (Proto.mkSession (Proto.dict_write (Proto.updated s) key v) (Proto.refs_proto s)
       (Proto.world s), Throw ReadOnlyRecoilValue).
Proof. intros H. unfold Proto.set. by rewrite (read_own _ _ _ H). Qed.

Lemma Proto_set_no_setter v key s :
  setters b !! key = None ->
  Proto.set b v key s =
    (Proto.mkSession (Proto.dict_write (Proto.updated s) key v) (Proto.refs_proto s)
       (Proto.world s),
     if Proto.inherited key then Proto.call_member key v else Throw TypeError).
Proof.
  intros H. unfold Proto.set, Proto.read. rewrite H.
  by destruct (Proto.inherited key).
Qed.

Lemma Proto_get_written v key s :
  key <> "__proto__" ->
  Proto.get b (Proto.set b v key s).1 key =
    if defined v then Proto.Val v
    else match Proto.read (dollar b) key with
         | Proto.Own x => Proto.Val x
         | Proto.Inherited name => Proto.Builtin name
         | Proto.Absent => Proto.Val VUndefined
         end.
Proof.
  intros Hk. unfold Proto.get.
  destruct (Proto_set_updated v key s) as [-> _].
  rewrite (Proto_dict_write_own _ _ _ Hk).
  rewrite (Proto_dict_read_own _ key v) by (simpl; by rewrite lookup_insert_eq).
  done.
Qed.

End ProtoShadow.

(** ** The two readings agree off the inherited names *)

Section Readings.

Variable b : Binding.

Lemma Proto_Path_agree defaults w :
  Forall registrable defaults -> Proto.Path defaults w = Path defaults w.
Proof.
  intros H. rewrite Proto_Path. f_equal.
  induction H as [|kd ds Hkd _ IH]; [done|].
  rewrite filter_cons, decide_True by done. by rewrite IH.
Qed.

Lemma Proto_get_agree s key :
  Proto.inherited key = false ->
  Proto.get b (shadow_session s) key = Proto.Val (get b s key).
Proof.
  intros Hi. unfold Proto.get, get, Proto.dict_read, prop. simpl. rewrite Hi.
  rewrite (read_plain _ _ Hi).
  destruct (updated s !! key) as [x|]; simpl.
  - destruct (defined x); [done|]. by destruct (dollar b !! key).
  - by destruct (dollar b !! key).
Qed.

Lemma Proto_set_agree v key s :
  Proto.inherited key = false ->
  Proto.set b v key (shadow_session s) = (shadow_session (set b v key s).1, (set b v key s).2).
Proof.
  intros Hi. unfold Proto.set, set. rewrite (read_plain _ _ Hi). simpl.
  rewrite (Proto_dict_write_own _ _ _ (not_inherited_proto _ Hi)). simpl.
  destruct (setters b !! key) as [a|]; [|done].
  by destruct (setRecoilState (scope b) a v (world s)).
Qed.

End Readings.

(** ** What a derivation is given, behind the prototype *)

Section ProtoDerivation.

Variable registry : gmap string RecoilValue.
Variable engine_get : Proto.getter.

Lemma Proto_call_getfn_depth g get :
  Proto.call_getfn registry g get =
    user_fn g (fun x => Nat.iter (depth g) (Proto.lookup_or_pass registry) get (Proto.Val x)).
Proof.
  revert get. induction g as [f|g IH]; intros get; simpl; [done|].
  rewrite IH. by rewrite <- Nat.iter_succ_r.
Qed.

Lemma Proto_lookup_or_pass_registered s a :
  registry !! s = Some a ->
  Proto.lookup_or_pass registry engine_get (Proto.Val (VStr s))
    = engine_get (Proto.Val (VRecoil a)).
Proof. intros Hs. unfold Proto.lookup_or_pass. simpl. by rewrite (read_own _ _ _ Hs). Qed.

Lemma Proto_lookup_or_pass_unregistered s :
  registry !! s = None ->
  Proto.lookup_or_pass registry engine_get (Proto.Val (VStr s))
    = if Proto.inherited s then engine_get (Proto.Builtin s)
      else engine_get (Proto.Val (VStr s)).
Proof.
  intros Hs. unfold Proto.lookup_or_pass, Proto.read. simpl. rewrite Hs.
  by destruct (Proto.inherited s).
Qed.

Lemma Proto_lookup_or_pass_other x :
  is_String x = false ->
  Proto.lookup_or_pass registry engine_get (Proto.Val x)
    = match Proto.to_property_key x with
      | Ok _ => engine_get (Proto.Val x)
      | Throw e => Throw e
      end.
Proof.
  intros Hx. unfold Proto.lookup_or_pass.
  destruct (Proto.to_property_key x) as [k|e]; [|done].
  rewrite Hx. by destruct (Proto.read registry k).
Qed.

Lemma Proto_lookup_or_pass_handle a :
  Proto.lookup_or_pass registry engine_get (Proto.Val (VRecoil a))
    = engine_get (Proto.Val (VRecoil a)).
Proof. by rewrite Proto_lookup_or_pass_other. Qed.

(** Wrapping once more changes nothing: what the outer wrapper passes on
    is a handle or an inherited member, not a string, so the inner ones
    pass it through. *)
Lemma Proto_lookup_or_pass_iter n j :
  Nat.iter (S n) (Proto.lookup_or_pass registry) engine_get j
    = Proto.lookup_or_pass registry engine_get j.
Proof.
  induction n as [|n IH] in j |- *; [done|].
  change (Nat.iter (S (S n)) (Proto.lookup_or_pass registry) engine_get j)
    with (Proto.lookup_or_pass registry
            (Nat.iter (S n) (Proto.lookup_or_pass registry) engine_get) j).
  set (G := Nat.iter (S n) (Proto.lookup_or_pass registry) engine_get) in *.
  destruct j as [x|name]; [|apply IH].
  unfold Proto.lookup_or_pass.
  destruct (Proto.to_property_key x) as [k|e] eqn:Ek; [|done].
  destruct (Proto.read registry k) as [a|name|] eqn:Er;
    destruct (is_String x) eqn:Es; rewrite IH;
    try apply Proto_lookup_or_pass_handle; try done;
    unfold Proto.lookup_or_pass; by rewrite Ek, Er, ?Es.
Qed.

End ProtoDerivation.

(** * The claims *)

(** ** C1 *)

(** C1, as the code has it.  For an entry [{key, default: d}] whose key
    has no cell yet, the injector registers a leaf cell whose default is
    [null], whatever [d] is: line 62 passes [_default], which line 44 set
    to [null] and nothing assigns afterwards.  The first value the
    component reads in [$[key]] is therefore [null] and not [d]. *)
Theorem C1_entry_default_is_dropped fuel sc w l o d store :
  heap w !! l = Some o -> spec_get o = None -> spec_default o = Some d ->
  atoms w !! spec_key o = None ->
  stores w !! sc = Some store -> store !! spec_key o = None ->
  observed (Injection fuel [Obj l] sc w) (spec_key o) = Some VNull /\
  nodes (Injection fuel [Obj l] sc w).1 !! spec_key o = Some (AtomNode VNull) /\
  (d <> VNull -> observed (Injection fuel [Obj l] sc w) (spec_key o) <> Some d).
Proof.
  intros Hl Hg _ Ha Hs Hk.
  assert (observed (Injection fuel [Obj l] sc w) (spec_key o) = Some VNull /\
          nodes (Injection fuel [Obj l] sc w).1 !! spec_key o = Some (AtomNode VNull))
    as [Hobs Hnode].
  { unfold Injection.
    rewrite (loop_fresh_leaf fuel (Obj l) [] _ w (spec_key o) store); simpl; try done.
    - unfold observed. simpl. rewrite !lookup_insert_eq. by rewrite Hk.
    - by exists o. }
  split; [done|]. split; [done|].
  intros Hd. rewrite Hobs. congruence.
Qed.

(** The README's entry: the default 2 is not what the component reads. *)
Lemma C1_entry_default_is_dropped_at_2 :
  spec_default state_2 = Some (VNum 2) /\
  observed (Injection 0 [Obj 0] 0 state_2_world) "state_2" = Some VNull /\
  nodes (Injection 0 [Obj 0] 0 state_2_world).1 !! "state_2" = Some (AtomNode VNull) /\
  observed (Injection 0 [Obj 0] 0 state_2_world) "state_2" <> Some (VNum 2).
Proof.
  split; [reflexivity|].
  destruct (C1_entry_default_is_dropped 0 0 state_2_world 0 state_2 (VNum 2) ∅)
    as (H1 & H2 & H3); try (vm_compute; reflexivity).
  split; [exact H1|]. split; [exact H2|]. apply H3. discriminate.
Defined.

(** ** C2 *)

(** C2 as written fails at [v = undefined]: the render reads [null] for
    the fresh cell ["k"]; after [set(undefined, "k")] the test of line 73
    takes the shadow entry for absent and [get("k")] returns [$["k"]],
    which is [null]. *)
Lemma C2_set_undefined_reads_dollar :
  exists b, k_render.2 = Ok b /\
    setters b !! "k" = Some (RecoilState "k") /\
    (set b VUndefined "k" (mkSession ∅ k_render.1)).2 = Ok tt /\
    get b (set b VUndefined "k" (mkSession ∅ k_render.1)).1 "k" <> VUndefined.
Proof.
  eexists. split; [vm_compute; reflexivity|].
  split; [vm_compute; reflexivity|].
  split; [vm_compute; reflexivity|].
  vm_compute. discriminate.
Qed.

(** C2, amended.  After [set(v, k)], in the same call chain and with the
    [$] of the render unchanged, [get(k)] returns [v] for every [v] other
    than [undefined]; after [set(undefined, k)] it returns [$[k]].  The
    read does not look at the engine, so it is the same whatever the
    engine has done with the write.  For a key bound to a leaf cell,
    [set] returns normally, so the chain [set(v, k); return get(k)]
    returns that value. *)
Theorem C2_get_after_set b v key s :
  get b (set b v key s).1 key = (if defined v then v else prop (dollar b) key) /\
  (forall w, get b (mkSession (updated (set b v key s).1) w) key
             = get b (set b v key s).1 key) /\
  forall k, setters b !! key = Some (RecoilState k) ->
    run b (DoSet v key (DoGet key Return)) s =
      ((set b v key s).1, Ok (if defined v then v else prop (dollar b) key)).
Proof.
  split; [apply get_after_set|]. split; [done|].
  intros k Hk. simpl. rewrite <- (get_after_set b v key s).
  rewrite (set_atom b v key k s Hk). done.
Qed.

(** ** C3 *)

(** C3, as the code has it.  A key that has a handle in [atoms] keeps
    that handle, and the node behind it, through every later [Roid]
    default and every later render of an injector, whatever the entries
    ask for.  When a [Roid] gives the default [v1] for an unregistered
    [k] that is no inherited name, the cell is registered with it and a
    component injected with an entry for [k] of any shape and default
    reads [v1] under a root where [k] was never written.  When [k] is a
    name inherited from [Object.prototype], [isNil(atoms[k])] fails at
    line 21 and again at line 54 or 59: no cell is registered, by the
    provider or by the injector, and the render throws at the hook. *)
Theorem C3_first_registration_wins w k :
  (forall a, atoms w !! k = Some a ->
     (forall defaults,
        atoms (Proto.Path defaults w) !! k = Some a /\
        nodes (Proto.Path defaults w) !! k = nodes w !! k) /\
     (forall fuel ents sc,
        atoms (Proto.Injection fuel ents sc w).1 !! k = Some a /\
        nodes (Proto.Injection fuel ents sc w).1 !! k = nodes w !! k)) /\
  (forall v1 override parent fuel v,
     atoms w !! k = None ->
     override <> Some false ->
     entry_key (heap w) v = Some k ->
     let m := Proto.Roid [(k, v1)] override parent w in
     if Proto.inherited k
     then atoms m.1 !! k = None /\ nodes m.1 = nodes w /\
          (Proto.Injection fuel [v] m.2 m.1).2 = Throw InvalidRecoilValue /\
          atoms (Proto.Injection fuel [v] m.2 m.1).1 !! k = None /\
          nodes (Proto.Injection fuel [v] m.2 m.1).1 = nodes w
     else observed (Proto.Injection fuel [v] m.2 m.1) k = Some v1).
Proof.
  split.
  - intros a Ha. split.
    + intros defaults. rewrite Proto_Path. by apply Path_keeps.
    + intros fuel ents sc. by apply Proto_Injection_loop_keeps.
  - intros v1 override parent fuel v Ha Hov Hv m. unfold m.
    rewrite Proto_Roid, filter_registrable_one.
    destruct (Proto.inherited k) eqn:Ei.
    + assert (atoms (Roid [] override parent w).1 = atoms w /\
              nodes (Roid [] override parent w).1 = nodes w /\
              heap (Roid [] override parent w).1 = heap w) as (Hma & Hmn & Hmh).
      { unfold Roid, RecoilRoot. by destruct parent, (default true override). }
      destruct (Proto_loop_inherited fuel v []
                  (mkBinding ∅ ∅ (Roid [] override parent w).2)
                  (Roid [] override parent w).1 k) as (Hthrow & Hat & Hnd);
        [by rewrite Hmh | by rewrite Hma | done |].
      unfold Proto.Injection. rewrite Hthrow, Hat, Hnd, Hma, Hmn. done.
    + set (m' := Roid [(k, v1)] override parent w).
      destruct (Roid_isolated [(k, v1)] override parent w Hov) as [Hsc Hst].
      fold m' in Hsc, Hst.
      assert (atoms m'.1 !! k = Some (RecoilState k) /\
              nodes m'.1 !! k = Some (AtomNode v1) /\ heap m'.1 = heap w) as (Hma & Hmn & Hmh).
      { unfold m', Roid, RecoilRoot.
        destruct parent, (default true override); simpl;
          unfold Path_step; simpl; rewrite Ha; simpl; by rewrite !lookup_insert_eq. }
      assert (stores m'.1 !! m'.2 = Some ∅) as Hs.
      { rewrite Hst, Hsc. by rewrite lookup_app_r, Nat.sub_diag. }
      unfold Proto.Injection.
      destruct (Proto_loop_registered_atom fuel v [] (mkBinding ∅ ∅ m'.2) m'.1 k
                  (RecoilState k) v1 ∅)
        as (w1 & Hrun & _); simpl; try done.
      { by rewrite Hmh. }
      simpl in Hrun. rewrite Hrun. unfold observed. simpl. by rewrite lookup_insert_eq.
Qed.

(** Registered by [<Roid defaults={{k: 1}}>], then injected as
    [{key: "k", default: 2}]: the component reads 1.  With ["toString"]
    in the place of ["k"], nothing is registered and the render
    throws. *)
Lemma C3_default_1_then_2_reads_1 :
  atoms k_world !! "k" = None /\
  spec_default k_default_2 = Some (VNum 2) /\
  observed (Proto.Injection 0 [Obj 0]
              (Proto.Roid [("k", VNum 1)] None None k_world).2
              (Proto.Roid [("k", VNum 1)] None None k_world).1) "k" = Some (VNum 1) /\
  nodes (Proto.Roid [("toString", VNum 1)] None None empty_world).1 = ∅ /\
  (Proto.Injection 0 [Key "toString"]
     (Proto.Roid [("toString", VNum 1)] None None empty_world).2
     (Proto.Roid [("toString", VNum 1)] None None empty_world).1).2
    = Throw InvalidRecoilValue.
Proof.
  split; [reflexivity|]. split; [reflexivity|]. split.
  - apply (proj2 (C3_first_registration_wins k_world "k") (VNum 1) None None 0 (Obj 0));
      [reflexivity | discriminate | reflexivity].
  - pose proof (proj2 (C3_first_registration_wins empty_world "toString")
                  (VNum 1) None None 0%nat (Key "toString") eq_refl
                  ltac:(discriminate) eq_refl) as H.
    simpl in H. destruct H as (_ & H1 & H2 & _). split; [exact H1 | exact H2].
Defined.

(** ** C4 *)

(** C4.  Running an action is the same as running it with every call
    [fn(B)(...)] replaced by the body of [B]: same result, same shadow
    map, same engine state, and so the same final value in every cell
    written.  With [counter = 0], [fn(add_and_multiply)(2)] adds 2 and
    then, through [fn(multiply)(3)], triples: the shadow map, the store
    and the next render all hold 6. *)
Theorem C4_chained_fn_is_inlining :
  (forall b a s, fn_free (inline a) /\ run b (inline a) s = run b a s) /\
  (forall b func args k s,
     run b (DoFn func args k) s = run b (bind (fn func args) k) s) /\
  (exists b,
     counter_render.2 = Ok b /\ dollar b !! "counter" = Some (VNum 0) /\
     let s0 := mkSession ∅ counter_render.1 in
     let s1 := (run b (fn (add_and_multiply "counter") [VNum 2]) s0).1 in
     inline (fn (add_and_multiply "counter") [VNum 2]) =
       add_and_multiply_by_hand "counter" (mkBag [VNum 2] (VNum 2)) /\
     s1 = (run b (add_and_multiply_by_hand "counter" (mkBag [VNum 2] (VNum 2))) s0).1 /\
     get b s1 "counter" = VNum 6 /\
     observed (Injection 0 [Key "counter"] (scope b) (world s1)) "counter" = Some (VNum 6)).
Proof.
  split; [|split].
  - intros b a s. split; [apply fn_free_inline | apply run_inline].
  - intros b func args k s. rewrite run_bind. done.
  - eexists. split; [vm_compute; reflexivity|].
    split; [vm_compute; reflexivity|].
    split; [reflexivity|].
    split; [vm_compute; reflexivity|].
    split; vm_compute; reflexivity.
Qed.

(** ** C5 *)

(** C5 as written fails in [index.jsx]: with the ids 1 and 2, [$] has no
    entry ["todo.1"] or ["todo.2"] and there is no setter under those
    names; [$] has the single entry ["todo"]. *)
Lemma C5_no_entry_per_id :
  exists b, todo_render.2 = Ok b /\
    dollar b !! "todo.1" = None /\ dollar b !! "todo.2" = None /\
    setters b !! "todo.1" = None /\ setters b !! "todo.2" = None /\
    dollar b = {["todo" := VNull]} /\ setters b = {["todo" := RecoilState "todo"]}.
Proof.
  eexists. split; [vm_compute; reflexivity|].
  repeat split; vm_compute; reflexivity.
Qed.

(** C5, amended.  [index.jsx] never reads [id].  Two entries
    [{key, id: id1}] and [{key, id: id2}] for an unregistered key that
    is no name inherited from [Object.prototype] are bound to the one
    leaf cell registered under [key]: [$] and [setters] have the single
    entry [key], both entries resolve to the same handle, and after
    [set(v, key)] the next render reads [v] for both. *)
Theorem C5_id_is_not_read fuel sc w l1 l2 o1 o2 key store :
  heap w !! l1 = Some o1 -> heap w !! l2 = Some o2 ->
  spec_key o1 = key -> spec_key o2 = key ->
  spec_get o1 = None -> spec_get o2 = None ->
  atoms w !! key = None -> Proto.inherited key = false ->
  stores w !! sc = Some store ->
  exists w' b,
    Proto.Injection fuel [Obj l1; Obj l2] sc w = (w', Ok b) /\
    dollar b = {[key := default VNull (store !! key)]} /\
    setters b = {[key := RecoilState key]} /\
    (Proto.resolve (Obj l1) w').2 = Ok (key, Proto.Own (RecoilState key)) /\
    (Proto.resolve (Obj l2) w').2 = Ok (key, Proto.Own (RecoilState key)) /\
    forall v upd rp,
      (Proto.set b v key (Proto.mkSession upd rp w')).2 = Ok tt /\
      (Proto.Injection fuel [Obj l1; Obj l2] sc
         (Proto.world (Proto.set b v key (Proto.mkSession upd rp w')).1)).2
        = Ok (mkBinding {[key := v]} {[key := RecoilState key]} sc).
Proof.
  intros Hl1 Hl2 Hk1 Hk2 Hg1 Hg2 Ha Hi Hs.
  set (w1 := with_atoms <[key := RecoilState key]> (with_nodes <[key := AtomNode VNull]> w)).
  assert (atoms w1 !! key = Some (RecoilState key)) as Ha1 by (simpl; by rewrite lookup_insert_eq).
  assert (nodes w1 !! key = Some (AtomNode VNull)) as Hn1 by (simpl; by rewrite lookup_insert_eq).
  assert (forall l o, heap w !! l = Some o -> spec_key o = key ->
            entry_key (heap w1) (Obj l) = Some key) as Hek.
  { intros l o Hl Hk. simpl. by rewrite Hl; simpl; rewrite Hk. }
  unfold Proto.Injection.
  rewrite (Proto_loop_fresh_leaf fuel (Obj l1) [Obj l2] _ w key store); simpl; try done;
    [|by exists o1].
  fold w1.
  destruct (Proto_loop_registered_atom fuel (Obj l2) [] 
              (mkBinding (<[key := default VNull (store !! key)]> ∅)
                         (<[key := RecoilState key]> ∅) sc)
              w1 key (RecoilState key) VNull store)
    as (w2 & Hrun & Hat2 & Hnd2 & Hst2 & Hh2); simpl; eauto.
  simpl in Hrun. rewrite Hrun. simpl.
  exists w2. eexists. split; [reflexivity|]. simpl.
  rewrite !insert_insert_eq.
  split; [done|]. split; [done|].
  assert (forall l o, heap w !! l = Some o -> spec_key o = key ->
            (Proto.resolve (Obj l) w2).2 = Ok (key, Proto.Own (RecoilState key))) as Hres.
  { intros l o Hl Hk.
    assert (entry_key (heap w2) (Obj l) = Some key) as He by (rewrite Hh2; by eapply Hek).
    destruct (resolve_registered (Obj l) w2 key (RecoilState key)) as (w3 & Hr & _);
      [done | by rewrite Hat2 |].
    rewrite Proto_resolve_own, Hr; [done|].
    intros k'. rewrite He. intros [= <-]. left. rewrite Hat2. by eexists. }
  split; [by eapply Hres|]. split; [by eapply Hres|].
  intros v upd rp.
  rewrite (Proto_set_atom _ v key key (Proto.mkSession upd rp w2))
    by (simpl; by rewrite lookup_insert_eq).
  simpl. split; [done|].
  set (w3 := with_stores (alter <[key := v]> sc) w2).
  assert (stores w3 !! sc = Some (<[key := v]> store)) as Hs3.
  { simpl. rewrite list_lookup_alter_eq, Hst2. simpl. by rewrite Hs. }
  assert (entry_key (heap w3) (Obj l1) = Some key) as He1.
  { change (heap w3) with (heap w2). rewrite Hh2. by eapply Hek. }
  assert (atoms w3 !! key = Some (RecoilState key)) as Ha3.
  { change (atoms w3) with (atoms w2). by rewrite Hat2. }
  assert (nodes w3 !! key = Some (AtomNode VNull)) as Hn3.
  { change (nodes w3) with (nodes w2). by rewrite Hnd2. }
  destruct (Proto_loop_registered_atom fuel (Obj l1) [Obj l2] (mkBinding ∅ ∅ sc)
              w3 key (RecoilState key) VNull (<[key := v]> store) He1 Ha3 Hn3 Hs3)
    as (w4 & Hrun4 & Hat4 & Hnd4 & Hst4 & Hh4).
  simpl in Hrun4. rewrite Hrun4.
  assert (entry_key (heap w4) (Obj l2) = Some key) as He2.
  { rewrite Hh4. change (heap w3) with (heap w2). rewrite Hh2. by eapply Hek. }
  assert (atoms w4 !! key = Some (RecoilState key)) as Ha4 by (by rewrite Hat4).
  assert (nodes w4 !! key = Some (AtomNode VNull)) as Hn4 by (by rewrite Hnd4).
  assert (stores w4 !! sc = Some (<[key := v]> store)) as Hs4 by (by rewrite Hst4).
  destruct (Proto_loop_registered_atom fuel (Obj l2) []
              (mkBinding (<[key := default VNull (<[key := v]> store !! key)]> ∅)
                         (<[key := RecoilState key]> ∅) sc)
              w4 key (RecoilState key) VNull (<[key := v]> store) He2 Ha4 Hn4 Hs4)
    as (w5 & Hrun5 & _).
  simpl in Hrun5. rewrite Hrun5. simpl.
  by rewrite !insert_insert_eq, lookup_insert_eq.
Qed.

(** The ids 1 and 2 of ["todo"]: one cell, and 5 written through it is
    what the next render reads. *)
Lemma C5_both_ids_read_one_cell :
  Proto.inherited "todo" = false /\
  exists w' b,
    Proto.Injection 0 [Obj 0; Obj 1] 0 todo_world = (w', Ok b) /\
    dollar b = {["todo" := VNull]} /\
    (Proto.set b (VNum 5) "todo" (Proto.mkSession Proto.empty_dict Proto.ObjectPrototype w')).2
      = Ok tt /\
    (Proto.Injection 0 [Obj 0; Obj 1] 0
       (Proto.world (Proto.set b (VNum 5) "todo"
                       (Proto.mkSession Proto.empty_dict Proto.ObjectPrototype w')).1)).2
      = Ok (mkBinding {["todo" := VNum 5]} {["todo" := RecoilState "todo"]} 0).
Proof.
  assert (heap todo_world !! 0%nat = Some todo_1) as Hl1 by (vm_compute; reflexivity).
  assert (heap todo_world !! 1%nat = Some todo_2) as Hl2 by (vm_compute; reflexivity).
  assert (atoms todo_world !! "todo" = None) as Ha by (vm_compute; reflexivity).
  assert (stores todo_world !! 0%nat = Some ∅) as Hs by (vm_compute; reflexivity).
  split; [reflexivity|].
  destruct (C5_id_is_not_read 0 0 todo_world 0 1 todo_1 todo_2 "todo" ∅
              Hl1 Hl2 eq_refl eq_refl eq_refl eq_refl Ha eq_refl Hs)
    as (w' & b & Hrun & Hd & _ & _ & _ & Hset).
  exists w', b. split; [exact Hrun|]. split; [exact Hd|].
  destruct (Hset (VNum 5) Proto.empty_dict Proto.ObjectPrototype) as [H1 H2].
  split; [exact H1 | exact H2].
Defined.

(** ** C6 *)

(** C6 at [callArgs = [0]]: [fn(f)(0)] calls [f] with [val = {}], not
    with [val = 0], the first argument passed. *)
Lemma C6_zero_is_replaced :
  fn return_val [VNum 0] = Return empty_object /\
  fn return_val [VNum 0] <> return_val (mkBag [VNum 0] (claimed_val [VNum 0])).
Proof. split; [reflexivity | discriminate]. Qed.

(** C6, as the code has it.  [fn(f)(...callArgs)] is one run of the
    body of [f] at the bag whose [args] is [callArgs] and whose [val] is
    [callArgs[0] || {}]: the first argument when it is truthy, and [{}]
    when it is missing or falsy.  That [val] is [callArgs[0] ?? {}]
    exactly when the first argument is truthy or nullish. *)
Theorem C6_fn_bag func callArgs :
  let bag :=
    mkBag callArgs (if truthy (first callArgs) then first callArgs else empty_object) in
  fn func callArgs = func bag /\
  (forall b k s, run b (DoFn func callArgs k) s = run b (bind (func bag) k) s) /\
  (val bag = claimed_val callArgs <->
     truthy (first callArgs) = true \/ isNil (first callArgs) = true).
Proof.
  intros bag. split; [done|]. split.
  - intros b k s. rewrite run_bind. done.
  - unfold bag, claimed_val, nullish_else, empty_object. simpl.
    destruct (first callArgs) as [| |[]|n| |s|props|r]; simpl;
      try (split; [auto | done]);
      try (split; [done | intros [?|?]; done]).
    + destruct (n =? 0)%Z; simpl; [split; [done | intros [?|?]; done] | split; auto].
    + destruct (String.eqb s EmptyString); simpl; [split; [done | intros [?|?]; done] | split; auto].
Qed.

(** ** C7 *)

(** C7, as the code has it.  For a spec [{key, get}] whose key has no
    cell yet and is no inherited name, the injector registers a selector
    whose derivation is the wrapper around the field; when the engine
    runs it with its own [get], the function the caller wrote receives a
    [get] that, applied to a string that is a registered key, is the
    engine's [get] of that key's handle (for a leaf cell: the value
    written under the current root, else the default), and applied to
    any other string, or to a value that is no string and converts to a
    property name, is the engine's [get] of the argument itself, with
    one exception: for a string that names a member of
    [Object.prototype] and no cell, [!isNil(atoms[v2])] holds at line 52
    and the engine's [get] is applied to that member.  This holds
    however often earlier renders wrapped the field already. *)
Theorem C7_derivation_get l o g w :
  heap w !! l = Some o -> spec_get o = Some g ->
  atoms w !! spec_key o = None -> Proto.inherited (spec_key o) = false ->
  nodes (Proto.resolve (Obj l) w).1 !! spec_key o = Some (SelectorNode (Wrapped g)) /\
  forall registry (engine_get : Proto.getter),
    exists get : Proto.getter,
      Proto.call_getfn registry (Wrapped g) engine_get
        = user_fn g (fun x => get (Proto.Val x)) /\
      (forall s a, registry !! s = Some a ->
         get (Proto.Val (VStr s)) = engine_get (Proto.Val (VRecoil a))) /\
      (forall s, registry !! s = None ->
         get (Proto.Val (VStr s)) =
           if Proto.inherited s then engine_get (Proto.Builtin s)
           else engine_get (Proto.Val (VStr s))) /\
      (forall x k, is_String x = false -> Proto.to_property_key x = Ok k ->
         get (Proto.Val x) = engine_get (Proto.Val x)) /\
      (forall s a d fuel nds store, registry !! s = Some a ->
         nds !! rv_key a = Some (AtomNode d) ->
         engine_get = Proto.getNodeValue fuel registry nds store ->
         get (Proto.Val (VStr s)) = Ok (default d (store !! rv_key a))).
Proof.
  intros Hl Hg Ha Hi. split.
  - rewrite Proto_resolve_own
      by (simpl; rewrite Hl; simpl; intros k [= <-]; by right).
    unfold own_result. simpl. rewrite Hl, Hg. unfold resolve_computed. simpl.
    rewrite Ha. simpl. by rewrite lookup_insert_eq.
  - intros registry engine_get.
    exists (Nat.iter (S (depth g)) (Proto.lookup_or_pass registry) engine_get).
    split; [apply (Proto_call_getfn_depth registry (Wrapped g))|].
    split; [|split; [|split]].
    + intros s a Hs. rewrite Proto_lookup_or_pass_iter.
      by apply Proto_lookup_or_pass_registered.
    + intros s Hs. rewrite Proto_lookup_or_pass_iter.
      by apply Proto_lookup_or_pass_unregistered.
    + intros x k Hx Hk. rewrite Proto_lookup_or_pass_iter.
      by rewrite Proto_lookup_or_pass_other, Hk.
    + intros s a d fuel nds store Hs Hn ->. rewrite Proto_lookup_or_pass_iter.
      rewrite (Proto_lookup_or_pass_registered _ _ s a Hs).
      destruct fuel; simpl; by rewrite Hn.
Qed.

(** The README's selector over ["atom"], registered with default 1 by
    the provider: the component reads 2.  A derivation that asks for
    ["toString"] has the engine's [get] applied to
    [Object.prototype.toString]. *)
Lemma C7_selector_reads_atom_plus_1 :
  (with_heap <[0%nat := selector_spec]>
     (Proto.Roid [("atom", VNum 1)] None None empty_world).1).(heap)
     !! 0%nat = Some selector_spec /\
  nodes (Proto.resolve (Obj 0)
          (with_heap <[0%nat := selector_spec]>
             (Proto.Roid [("atom", VNum 1)] None None empty_world).1)).1 !! "selector"
    = Some (SelectorNode (Wrapped (UserFn atom_plus_1))) /\
  observed (Proto.Injection 1 [Obj 0] 0
              (with_heap <[0%nat := selector_spec]>
                 (Proto.Roid [("atom", VNum 1)] None None empty_world).1)) "selector"
    = Some (VNum 2) /\
  forall engine_get : Proto.getter,
    Proto.call_getfn ∅ (Wrapped (UserFn (fun get => get (VStr "toString")))) engine_get
      = engine_get (Proto.Builtin "toString").
Proof.
  split; [reflexivity|]. split; [|split].
  - apply (C7_derivation_get 0 selector_spec (UserFn atom_plus_1)
             (with_heap <[0%nat := selector_spec]>
                (Proto.Roid [("atom", VNum 1)] None None empty_world).1));
      reflexivity.
  - vm_compute. reflexivity.
  - intros engine_get. reflexivity.
Defined.

(** ** C8 *)

(** C8.  Two [Roid]s mounted side by side without [override = false] get
    two different roots, and the capabilities of a component write under
    the root it was rendered under.  Whatever an action run through the
    capabilities of a component under one of the two roots does, a
    component under the other reads the same values before and after:
    the same [$] for any entries, the same value for any handle. *)
Theorem C8_sibling_scopes_are_isolated d1 d2 ov1 ov2 parent w0 :
  ov1 <> Some false -> ov2 <> Some false ->
  let m1 := Roid d1 ov1 parent w0 in
  let m2 := Roid d2 ov2 parent m1.1 in
  m1.2 <> m2.2 /\
  (forall fuel ents sc w w' b,
     Injection fuel ents sc w = (w', Ok b) -> scope b = sc) /\
  forall (b : Binding) (a : action) (s : Session) (other : nat),
    (scope b = m1.2 /\ other = m2.2) \/ (scope b = m2.2 /\ other = m1.2) ->
    forall fuel,
      (forall r, useRecoilValue fuel other r (world (run b a s).1)
                 = useRecoilValue fuel other r (world s)) /\
      (forall ents, (Injection fuel ents other (world (run b a s).1)).2
                    = (Injection fuel ents other (world s)).2).
Proof.
  intros H1 H2 m1 m2.
  destruct (Roid_isolated d1 ov1 parent w0 H1) as [Hs1 Hst1].
  destruct (Roid_isolated d2 ov2 parent m1.1 H2) as [Hs2 _].
  fold m1 in Hs1, Hst1, Hs2. fold m2 in Hs2.
  assert (m1.2 <> m2.2) as Hne.
  { rewrite Hs1, Hs2, Hst1, length_app. simpl. lia. }
  split; [done|]. split.
  { intros fuel ents sc w w' b Hrun. by apply Injection_loop_scope in Hrun. }
  intros b a s other Hsc fuel.
  assert (scope b <> other) as Hb by (destruct Hsc as [[-> ->]|[-> ->]]; congruence).
  pose proof (run_view b other a s Hb) as Hv.
  split.
  - intros r. symmetry. by apply useRecoilValue_view.
  - intros ents. symmetry. by apply Injection_view.
Qed.

(** Whatever is written to ["k"] under the first sibling, the second
    goes on reading 1, and the first reads what was written. *)
Lemma C8_write_under_first_sibling :
  (None : option bool) <> Some false /\
  siblings.1.2 <> siblings.2 /\
  exists b,
    sibling_render = (sibling_render.1, Ok b) /\
    forall v,
      let w' := world (run b (DoSet v "k" (Return VUndefined))
                         (mkSession ∅ sibling_render.1)).1 in
      observed (Injection 0 [Key "k"] siblings.1.2 w') "k" = Some v /\
      observed (Injection 0 [Key "k"] siblings.2 sibling_render.1) "k" = Some (VNum 1) /\
      observed (Injection 0 [Key "k"] siblings.2 w') "k" = Some (VNum 1).
Proof.
  split; [discriminate|].
  pose proof (C8_sibling_scopes_are_isolated [("k", VNum 1)] [("k", VNum 2)]
                None None None empty_world ltac:(discriminate) ltac:(discriminate))
    as (Hne & _ & H).
  split; [exact Hne|].
  exists (mkBinding {["k" := VNum 1]} {["k" := RecoilState "k"]} 0).
  split; [vm_compute; reflexivity|].
  intros v w'. split; [vm_compute; reflexivity|].
  split; [vm_compute; reflexivity|].
  unfold observed, w'.
  rewrite (proj2 (H (mkBinding {["k" := VNum 1]} {["k" := RecoilState "k"]} 0)
                    (DoSet v "k" (Return VUndefined)) (mkSession ∅ sibling_render.1)
                    siblings.2 (or_introl (conj eq_refl eq_refl)) 0%nat) [Key "k"]).
  vm_compute. reflexivity.
Defined.

(** ** C9 *)

(** C9, as the code has it.  When a render returned and [k] is not the
    key of any of its entries, [set(v, k)] assigns [updated[k]] and then
    calls [setters[k]], the process-wide state untouched.  For a [k]
    that is no inherited name the assignment creates the shadow entry
    and the call throws a [TypeError]; the entry stays, so once the
    error is caught [get(k)] returns [v].  For a [k] that names a member
    of [Object.prototype] the call is a call of that member: with
    [constructor], [toString], [toLocaleString], [valueOf] and
    [isPrototypeOf] it returns and [set] reports no failure. *)
Theorem C9_set_of_unbound_key fuel ents sc w w' b k v s :
  Proto.Injection fuel ents sc w = (w', Ok b) ->
  Forall (fun e => entry_key (heap w) e <> Some k) ents ->
  let s' := Proto.mkSession (Proto.dict_write (Proto.updated s) k v)
              (Proto.refs_proto s) (Proto.world s) in
  Proto.set b v k s =
    (s', if Proto.inherited k then Proto.call_member k v else Throw TypeError) /\
  (Proto.inherited k = false ->
     (Proto.set b v k s).2 = Throw TypeError /\
     Proto.own (Proto.updated s') = <[k := v]> (Proto.own (Proto.updated s)) /\
     Proto.get b s' k = Proto.Val v /\
     Proto.run b (Proto.TryCatch (Proto.DoSet v k (Proto.Return VUndefined))
                    (Proto.Return VUndefined)) s = (s', Ok VUndefined)) /\
  (k ∈ ["constructor"; "toString"; "toLocaleString"; "valueOf"; "isPrototypeOf"] ->
     (Proto.set b v k s).2 = Ok tt).
Proof.
  intros Hrun Hk s'.
  destruct (Proto_Injection_loop_unbound fuel ents (mkBinding ∅ ∅ sc) w w' b k Hrun Hk)
    as [Hd Hs]; [done|done|].
  pose proof (Proto_set_no_setter b v k s Hs) as Hset. fold s' in Hset.
  split; [exact Hset|]. split.
  - intros Hi. rewrite Hi in Hset. pose proof (not_inherited_proto k Hi) as Hne.
    assert (Proto.updated s' = Proto.mkDict (<[k := v]> (Proto.own (Proto.updated s)))
                                 (Proto.proto (Proto.updated s))) as Hu
      by (unfold s'; simpl; by apply Proto_dict_write_own).
    split; [by rewrite Hset|]. split; [by rewrite Hu|]. split.
    + pose proof (Proto_get_written b v k s Hne) as Hget.
      rewrite Hset in Hget. simpl in Hget. rewrite Hget.
      rewrite (read_plain _ _ Hi), Hd. by destruct v.
    + simpl. by rewrite Hset.
  - intros Hin. rewrite Hset. simpl.
    repeat (apply elem_of_cons in Hin as [->|Hin]; [reflexivity|]).
    by apply elem_of_nil in Hin.
Qed.

(** A component that injects only ["k"] sets ["other"] to 7, catches
    the error and reads 7 back; when it sets ["toString"] to 7 there is
    no error to catch, and when it sets ["__proto__"] to 7 nothing is
    recorded and it reads [Object.prototype] back. *)
Lemma C9_set_of_unbound_key_at_other :
  let r := Proto.Injection 0 [Key "k"] 0 (Proto.Roid [] None None empty_world).1 in
  let b := mkBinding {["k" := VNull]} {["k" := RecoilState "k"]} 0 in
  let s := Proto.mkSession Proto.empty_dict Proto.ObjectPrototype r.1 in
  r = (r.1, Ok b) /\
  Forall (fun e => entry_key (heap (Proto.Roid [] None None empty_world).1) e <> Some "other")
    [Key "k"] /\
  (Proto.set b (VNum 7) "other" s).2 = Throw TypeError /\
  Proto.get b (Proto.set b (VNum 7) "other" s).1 "other" = Proto.Val (VNum 7) /\
  (Proto.set b (VNum 7) "toString" s).2 = Ok tt /\
  Proto.set b (VNum 7) "__proto__" s = (s, Throw TypeError) /\
  Proto.get b s "__proto__" = Proto.Builtin "__proto__".
Proof.
  intros r b s.
  assert (r = (r.1, Ok b)) as Hr by (vm_compute; reflexivity).
  assert (Forall (fun e => entry_key (heap (Proto.Roid [] None None empty_world).1) e
                           <> Some "other") [Key "k"]) as Hk
    by (repeat constructor; discriminate).
  split; [exact Hr|]. split; [exact Hk|].
  destruct (C9_set_of_unbound_key 0 [Key "k"] 0 (Proto.Roid [] None None empty_world).1
              r.1 b "other" (VNum 7) s Hr Hk) as (Hset & Hplain & _).
  destruct (Hplain eq_refl) as (H1 & _ & H2 & _).
  split; [exact H1|]. split; [by rewrite Hset|].
  split; [reflexivity|]. split; reflexivity.
Defined.

(** ** C10 *)

(** C10.  Resolving an entry that is an object with an own [get] stores
    the wrapper around the old field value back into that object,
    whether or not the key is registered already.  After [n] renders
    that returned, the field holds the original function wrapped once
    per render and per occurrence of the object in the array: [n] times
    for an object the array names once. *)
Theorem C10_get_field_is_rewrapped n fuel ents sc l o g w w' :
  heap w !! l = Some o -> spec_get o = Some g ->
  renders n fuel ents sc w = (w', Ok tt) ->
  heap (resolve (Obj l) w).1 !! l
    = Some (mkSpec (spec_key o) (spec_default o) (Some (Wrapped g)) (spec_id o)) /\
  heap w' !! l
    = Some (mkSpec (spec_key o) (spec_default o)
              (Some (Nat.iter (n * occurrences l ents) Wrapped g)) (spec_id o)) /\
  (occurrences l ents = 1%nat ->
   heap w' !! l
     = Some (mkSpec (spec_key o) (spec_default o) (Some (Nat.iter n Wrapped g)) (spec_id o))).
Proof.
  intros Hl Hg Hrun.
  assert (heap w' !! l
          = Some (mkSpec (spec_key o) (spec_default o)
                    (Some (Nat.iter (n * occurrences l ents) Wrapped g)) (spec_id o))) as H.
  { rewrite (renders_heap n fuel ents sc w w' l Hrun), Hl. simpl.
    by rewrite (rewrap_iter _ o g Hg). }
  split; [|split].
  - rewrite resolve_heap, decide_True by done. rewrite Hl. simpl.
    unfold rewrap. by rewrite Hg.
  - exact H.
  - intros Hocc. by rewrite Hocc, Nat.mul_1_r in H.
Qed.

(** Three renders of the README's selector entry: the caller's object
    holds the function wrapped three times, the engine the function
    wrapped once. *)
Lemma C10_three_renders :
  let w := with_heap <[0%nat := selector_spec]>
             (Roid [("atom", VNum 1)] None None empty_world).1 in
  exists w',
    renders 3 1 [Obj 0] 0 w = (w', Ok tt) /\
    spec_get <$> heap w' !! 0%nat
      = Some (Some (Wrapped (Wrapped (Wrapped (UserFn atom_plus_1))))) /\
    nodes w' !! "selector" = Some (SelectorNode (Wrapped (UserFn atom_plus_1))).
Proof.
  intros w.
  exists (renders 3 1 [Obj 0] 0 w).1.
  assert (renders 3 1 [Obj 0] 0 w = ((renders 3 1 [Obj 0] 0 w).1, Ok tt)) as Hr
    by (vm_compute; reflexivity).
  split; [exact Hr|]. split.
  - rewrite (proj2 (proj2 (C10_get_field_is_rewrapped 3 1 [Obj 0] 0 0 selector_spec
                             (UserFn atom_plus_1) w _ eq_refl eq_refl Hr)) eq_refl).
    reflexivity.
  - vm_compute. reflexivity.
Defined.

(** * Further properties of the code *)

(** ** [Path]: what the defaults of a provider register *)

Section Defaults.

Lemma Path_step_registered w kd :
  is_Some (atoms w !! kd.1) -> Path_step w kd = w.
Proof. intros [a Ha]. unfold Path_step. by rewrite Ha. Qed.

Lemma Path_step_atoms w kd k :
  atoms (Path_step w kd) !! k =
    match atoms w !! k with
    | Some a => Some a
    | None => if decide (k = kd.1) then Some (RecoilState k) else None
    end.
Proof.
  unfold Path_step. destruct (atoms w !! kd.1) as [a|] eqn:E; simpl.
  - destruct (atoms w !! k) eqn:Ek; [done|].
    destruct (decide (k = kd.1)) as [->|]; [congruence|done].
  - destruct (decide (k = kd.1)) as [->|Hne].
    + by rewrite lookup_insert_eq, E.
    + rewrite lookup_insert_ne by done. by destruct (atoms w !! k).
Qed.

Lemma Path_step_nodes w kd k :
  nodes (Path_step w kd) !! k =
    if decide (k = kd.1 /\ atoms w !! k = None) then Some (AtomNode kd.2)
    else nodes w !! k.
Proof.
  unfold Path_step. destruct (atoms w !! kd.1) as [a|] eqn:E; simpl.
  - rewrite decide_False; [done|]. intros [-> ?]. congruence.
  - destruct (decide (k = kd.1)) as [->|Hne].
    + rewrite decide_True by done. by rewrite lookup_insert_eq.
    + rewrite decide_False by (intros [? _]; done). by rewrite lookup_insert_ne.
Qed.

Lemma Path_step_frame w kd :
  refs (Path_step w kd) = refs w /\ stores (Path_step w kd) = stores w /\
  heap (Path_step w kd) = heap w.
Proof. unfold Path_step. by destruct (atoms w !! kd.1). Qed.

Lemma Path_atoms defaults w k :
  atoms (Path defaults w) !! k =
    match atoms w !! k with
    | Some a => Some a
    | None => if decide (k ∈ defaults.*1) then Some (RecoilState k) else None
    end.
Proof.
  unfold Path. revert w. induction defaults as [|kd ds IH]; intros w; simpl.
  - by destruct (atoms w !! k).
  - rewrite IH, Path_step_atoms. destruct (atoms w !! k) as [a|]; [done|].
    destruct (decide (k = kd.1)) as [->|Hne].
    + rewrite decide_True; [done|]. apply elem_of_cons. by left.
    + destruct (decide (k ∈ ds.*1)) as [Hin|Hout].
      * rewrite decide_True; [done|]. apply elem_of_cons. by right.
      * rewrite decide_False; [done|]. intros Hin. apply elem_of_cons in Hin as [?|?]; done.
Qed.

Lemma Path_nodes_fresh defaults w k d :
  NoDup defaults.*1 -> (k, d) ∈ defaults -> atoms w !! k = None ->
  nodes (Path defaults w) !! k = Some (AtomNode d).
Proof.
  unfold Path. revert w. induction defaults as [|kd ds IH]; intros w Hnd Hin Ha.
  - by apply elem_of_nil in Hin.
  - simpl in *. apply NoDup_cons in Hnd as [Hhd Hnd].
    apply elem_of_cons in Hin as [<-|Hin].
    + assert (atoms (Path_step w (k, d)) !! k = Some (RecoilState k)) as Hreg.
      { rewrite Path_step_atoms, Ha. simpl. by rewrite decide_True. }
      destruct (Path_keeps ds (Path_step w (k, d)) k _ Hreg) as [_ Hn].
      unfold Path in Hn. rewrite Hn, Path_step_nodes. simpl. by rewrite decide_True.
    + assert (k <> kd.1) as Hne.
      { intros ->. apply Hhd. apply list_elem_of_fmap. by exists (kd.1, d). }
      apply IH; [done|done|].
      rewrite Path_step_atoms, Ha. by rewrite decide_False.
Qed.

Lemma Path_nodes_other defaults w k :
  is_Some (atoms w !! k) \/ k ∉ defaults.*1 ->
  nodes (Path defaults w) !! k = nodes w !! k.
Proof.
  unfold Path. revert w. induction defaults as [|kd ds IH]; intros w Hk; simpl; [done|].
  rewrite IH.
  - rewrite Path_step_nodes. rewrite decide_False; [done|].
    intros [-> Ha]. destruct Hk as [[a Hs]|Hn]; [congruence|].
    apply Hn, elem_of_cons. by left.
  - destruct Hk as [[a Hs]|Hn].
    + left. rewrite Path_step_atoms, Hs. by eexists.
    + right. intros Hin. apply Hn, elem_of_cons. by right.
Qed.

Lemma Path_frame defaults w :
  refs (Path defaults w) = refs w /\ stores (Path defaults w) = stores w /\
  heap (Path defaults w) = heap w.
Proof.
  unfold Path. revert w. induction defaults as [|kd ds IH]; intros w; simpl; [done|].
  destruct (IH (Path_step w kd)) as (-> & -> & ->). apply Path_step_frame.
Qed.

Lemma Path_all_registered defaults w :
  (forall kd, kd ∈ defaults -> is_Some (atoms w !! kd.1)) -> Path defaults w = w.
Proof.
  unfold Path. induction defaults as [|kd ds IH]; intros Hreg; simpl; [done|].
  rewrite Path_step_registered by (apply Hreg, elem_of_cons; by left).
  apply IH. intros kd' Hin. apply Hreg, elem_of_cons. by right.
Qed.

End Defaults.

Section ProtoDefaults.

Lemma elem_of_registrable_fst defaults k :
  k ∈ (filter registrable defaults).*1 <-> k ∈ defaults.*1 /\ Proto.inherited k = false.
Proof.
  rewrite !list_elem_of_fmap. split.
  - intros (kd & -> & Hin). apply list_elem_of_filter in Hin as [Hp Hin].
    split; [by exists kd|done].
  - intros [(kd & -> & Hin) Hi]. exists kd. split; [done|].
    by apply list_elem_of_filter.
Qed.

Lemma NoDup_registrable_fst defaults :
  NoDup defaults.*1 -> NoDup (filter registrable defaults).*1.
Proof.
  induction defaults as [|kd ds IH]; [done|]. rewrite filter_cons. csimpl.
  intros Hnd. apply NoDup_cons in Hnd as [Hnot Hnd].
  destruct (decide (registrable kd)); [|by apply IH].
  csimpl. apply NoDup_cons. split; [|by apply IH].
  intros Hin. by apply elem_of_registrable_fst in Hin as [Hin _].
Qed.

End ProtoDefaults.

(** [Path] registers a leaf cell, with the default the provider gives
    for it, for each key of [defaults] that has no cell yet and is no
    name inherited from [Object.prototype], and touches nothing else:
    registered keys keep handle and node, the inherited names and the
    keys [defaults] does not have stay unregistered, and [refs], the
    stores and the spec objects are as before. *)
Theorem Path_registers_defaults defaults w :
  NoDup defaults.*1 ->
  (forall k, atoms (Proto.Path defaults w) !! k =
     match atoms w !! k with
     | Some a => Some a
     | None =>
         if decide (k ∈ defaults.*1)
         then (if Proto.inherited k then None else Some (RecoilState k))
         else None
     end) /\
  (forall k d, (k, d) ∈ defaults -> atoms w !! k = None -> Proto.inherited k = false ->
     nodes (Proto.Path defaults w) !! k = Some (AtomNode d)) /\
  (forall k, is_Some (atoms w !! k) \/ k ∉ defaults.*1 \/ Proto.inherited k = true ->
     nodes (Proto.Path defaults w) !! k = nodes w !! k) /\
  refs (Proto.Path defaults w) = refs w /\ stores (Proto.Path defaults w) = stores w /\
  heap (Proto.Path defaults w) = heap w.
Proof.
  intros Hnd. rewrite Proto_Path. split; [|split; [|split]].
  - intros k. rewrite Path_atoms. destruct (atoms w !! k); [done|].
    destruct (decide (k ∈ defaults.*1)) as [Hin|Hout].
    + destruct (Proto.inherited k) eqn:Ei.
      * rewrite decide_False; [done|].
        intros H. apply elem_of_registrable_fst in H as [_ H]. congruence.
      * rewrite decide_True; [done|]. by apply elem_of_registrable_fst.
    + rewrite decide_False; [done|].
      intros H. by apply elem_of_registrable_fst in H as [H _].
  - intros k d Hin Ha Hi. apply Path_nodes_fresh; [by apply NoDup_registrable_fst| |done].
    by apply list_elem_of_filter.
  - intros k Hk. apply Path_nodes_other.
    destruct Hk as [Hk|[Hk|Hk]]; [by left| |]; right; intros H;
      apply elem_of_registrable_fst in H as [H1 H2]; [done|congruence].
  - apply Path_frame.
Qed.

(** [<Roid defaults={{state_1: 1, state_2: "two", toString: 3}}>], in a
    process where nothing is registered. *)
Lemma Path_registers_defaults_readme :
  let defaults := [("state_1", VNum 1); ("state_2", VStr "two"); ("toString", VNum 3)] in
  NoDup defaults.*1 /\
  atoms (Proto.Path defaults empty_world) !! "state_2" = Some (RecoilState "state_2") /\
  nodes (Proto.Path defaults empty_world) !! "state_2" = Some (AtomNode (VStr "two")) /\
  atoms (Proto.Path defaults empty_world) !! "state_3" = None /\
  atoms (Proto.Path defaults empty_world) !! "toString" = None /\
  nodes (Proto.Path defaults empty_world) !! "toString" = None.
Proof.
  intros defaults.
  assert (NoDup defaults.*1) as Hnd by (by apply (bool_decide_unpack _); vm_compute).
  destruct (Path_registers_defaults defaults empty_world Hnd) as (Ha & Hn & Ho & _).
  split; [exact Hnd|]. split; [|split; [|split; [|split]]].
  - rewrite Ha. reflexivity.
  - apply Hn; [|reflexivity|reflexivity]. unfold defaults. apply elem_of_cons. right.
    apply elem_of_cons. by left.
  - rewrite Ha. reflexivity.
  - rewrite Ha. reflexivity.
  - rewrite Ho; [reflexivity|]. right. by right.
Defined.

(** Rendering [Path] again registers nothing: [Path] is idempotent, and
    it is the identity on a process in which every key of [defaults] is
    registered, whatever defaults it is given for them. *)
Theorem Path_idempotent defaults w :
  Path defaults (Path defaults w) = Path defaults w /\
  forall defaults',
    (forall kd, kd ∈ defaults' -> is_Some (atoms w !! kd.1)) -> Path defaults' w = w.
Proof.
  split; [|intros defaults'; apply Path_all_registered].
  apply Path_all_registered. intros kd Hin.
  rewrite Path_atoms. destruct (atoms w !! kd.1); [by eexists|].
  rewrite decide_True; [by eexists|]. apply list_elem_of_fmap. by exists kd.
Qed.

(** ** An invariant of the registry *)

Section Consistent.

Lemma consistent_empty : consistent empty_world.
Proof. intros k a H. simpl in H. by rewrite lookup_empty in H. Qed.

Lemma consistent_register_atom key d w :
  consistent w -> atoms w !! key = None ->
  consistent (with_atoms <[key := RecoilState key]> (with_nodes <[key := AtomNode d]> w)).
Proof.
  intros Hc Ha k a. simpl. destruct (decide (key = k)) as [->|Hne].
  - rewrite !lookup_insert_eq. intros [= <-]. left. eauto.
  - rewrite !lookup_insert_ne by done. apply Hc.
Qed.

Lemma consistent_register_selector key g w :
  consistent w -> atoms w !! key = None ->
  consistent (with_atoms <[key := RecoilValueReadOnly key]>
                (with_nodes <[key := SelectorNode g]> w)).
Proof.
  intros Hc Ha k a. simpl. destruct (decide (key = k)) as [->|Hne].
  - rewrite !lookup_insert_eq. intros [= <-]. right. eauto.
  - rewrite !lookup_insert_ne by done. apply Hc.
Qed.

Lemma consistent_same w w' :
  atoms w' = atoms w -> nodes w' = nodes w -> consistent w -> consistent w'.
Proof. intros Ha Hn Hc k a. rewrite Ha, Hn. apply Hc. Qed.

Lemma Path_step_consistent w kd : consistent w -> consistent (Path_step w kd).
Proof.
  intros Hc. unfold Path_step. destruct (atoms w !! kd.1) eqn:E; [done|].
  simpl. by apply consistent_register_atom.
Qed.

Lemma Path_consistent defaults w : consistent w -> consistent (Path defaults w).
Proof.
  unfold Path. revert w. induction defaults as [|kd ds IH]; intros w Hc; simpl; [done|].
  by apply IH, Path_step_consistent.
Qed.

Lemma Roid_consistent defaults override parent w :
  consistent w -> consistent (Roid defaults override parent w).1.
Proof.
  intros Hc. unfold Roid, RecoilRoot.
  destruct parent, (default true override); simpl; apply Path_consistent;
    by apply (consistent_same w).
Qed.

Lemma resolve_consistent v w : consistent w -> consistent (resolve v w).1.
Proof.
  intros Hc. destruct v as [k|l]; simpl.
  - unfold resolve_leaf. destruct (atoms w !! k) eqn:E; simpl; [done|].
    by apply consistent_register_atom.
  - destruct (heap w !! l) as [o|]; [|done].
    destruct (spec_get o) as [g|].
    + unfold resolve_computed. simpl. destruct (atoms w !! spec_key o) eqn:E; simpl.
      * by apply (consistent_same w).
      * apply (consistent_register_selector (spec_key o) (Wrapped g)
                 (with_heap <[l := mkSpec (spec_key o) (spec_default o)
                                      (Some (Wrapped g)) (spec_id o)]> w));
          [by apply (consistent_same w)|done].
    + unfold resolve_leaf. destruct (atoms w !! spec_key o) eqn:E; simpl; [done|].
      by apply consistent_register_atom.
Qed.

Lemma Injection_loop_consistent fuel ents b w :
  consistent w -> consistent (Injection_loop fuel ents b w).1.
Proof.
  revert b w. induction ents as [|v rest IH]; intros b w Hc; simpl; [done|].
  pose proof (resolve_consistent v w Hc) as Hr.
  destruct (resolve v w) as [w1 [[key a]|e]]; simpl in *; [|done].
  destruct (useRecoilState fuel (scope b) a w1) as [[x st]|e]; simpl; [|done].
  by apply IH.
Qed.

Lemma run_registry b a s :
  atoms (world (run b a s).1) = atoms (world s) /\
  nodes (world (run b a s).1) = nodes (world s) /\
  heap (world (run b a s).1) = heap (world s) /\
  length (stores (world (run b a s).1)) = length (stores (world s)).
Proof.
  revert s.
  induction a as [r|e|key k IH|v key k IH|func IHf args k IH
                 |name k IH|name v k IH|body IHb k IH]; intros s; simpl.
  - done.
  - done.
  - apply IH.
  - assert (atoms (world (set b v key s).1) = atoms (world s) /\
            nodes (world (set b v key s).1) = nodes (world s) /\
            heap (world (set b v key s).1) = heap (world s) /\
            length (stores (world (set b v key s).1)) = length (stores (world s)))
      as Hs.
    { unfold set. destruct (setters b !! key) as [[k'|k']|]; simpl; try done.
      repeat split. apply length_alter. }
    destruct (set b v key s) as [s' [[]|e]]; simpl in *; [|done].
    destruct (IH s') as (-> & -> & -> & ->). done.
  - pose proof (IHf (mkBag args (or_else (first args) empty_object)) s) as Hf.
    fold (fn func args) in Hf.
    destruct (run b (fn func args) s) as [s' [r|e]]; simpl in *; [|done].
    destruct (IH r s') as (-> & -> & -> & ->). done.
  - apply IH.
  - destruct (IH (mkSession (updated s) (with_refs <[name := v]> (world s))))
      as (-> & -> & -> & ->). done.
  - destruct (IH (run b body s).1) as (-> & -> & -> & ->). apply IHb.
Qed.

End Consistent.

(** The registry starts consistent and stays so: mounting a provider,
    rendering an injected component (whether the render returns or
    throws) and running an action all keep every registered key filed
    with a handle that carries the key, read-write over a leaf cell or
    read-only over a computed one; an action changes neither the registry
    nor the spec objects nor the number of roots. *)
Theorem registry_stays_consistent :
  consistent empty_world /\
  forall w, consistent w ->
    (forall defaults override parent, consistent (Roid defaults override parent w).1) /\
    (forall fuel ents sc, consistent (Injection fuel ents sc w).1) /\
    (forall b a upd,
       let w' := world (run b a (mkSession upd w)).1 in
       consistent w' /\ atoms w' = atoms w /\ nodes w' = nodes w /\ heap w' = heap w /\
       length (stores w') = length (stores w)).
Proof.
  split; [apply consistent_empty|]. intros w Hc. split; [|split].
  - intros defaults override parent. by apply Roid_consistent.
  - intros fuel ents sc. by apply Injection_loop_consistent.
  - intros b a upd w'.
    destruct (run_registry b a (mkSession upd w)) as (Ha & Hn & Hh & Hl).
    split; [by apply (consistent_same w)|done].
Qed.

(** ** The keys a render binds, and what [set] does with a key *)

Section Bound.

Lemma resolve_handle v w w1 key a :
  resolve v w = (w1, Ok (key, a)) -> atoms w1 !! key = Some a.
Proof.
  destruct v as [k|l]; simpl.
  - unfold resolve_leaf. destruct (atoms w !! k) eqn:E; simpl; intros [= <- <- <-].
    + done.
    + simpl. by rewrite lookup_insert_eq.
  - destruct (heap w !! l) as [o|]; [|done].
    destruct (spec_get o) as [g|].
    + unfold resolve_computed. simpl.
      destruct (atoms w !! spec_key o) eqn:E; simpl; intros [= <- <- <-].
      * done.
      * simpl. by rewrite lookup_insert_eq.
    + unfold resolve_leaf.
      destruct (atoms w !! spec_key o) eqn:E; simpl; intros [= <- <- <-].
      * done.
      * simpl. by rewrite lookup_insert_eq.
Qed.

Lemma Proto_resolve_handle v w w1 key a :
  Proto.resolve v w = (w1, Ok (key, Proto.Own a)) -> atoms w1 !! key = Some a.
Proof.
  destruct (Proto_resolve_cases v w) as [->|(k & w2 & _ & _ & _ & -> & _)]; [|done].
  unfold own_result. pose proof (resolve_handle v w) as H.
  destruct (resolve v w) as [w2 [[k2 a2]|e]]; simpl; [|done].
  intros [= <- <- <-]. by eapply H.
Qed.

Lemma Proto_hook_own fuel sc sl w x st :
  Proto.useRecoilState fuel sc sl w = Ok (x, st) -> sl = Proto.Own st.
Proof.
  unfold Proto.useRecoilState. destruct sl as [r| |]; [|done|done].
  destruct (Proto.useRecoilValue fuel sc r w); [|done]. by intros [= _ <-].
Qed.

Lemma Proto_entry_keys_heap v w ents :
  entry_keys (heap (Proto.resolve v w).1) ents = entry_keys (heap w) ents.
Proof.
  unfold entry_keys. induction ents as [|e es IH]; [done|].
  csimpl. rewrite Proto_resolve_entry_key. destruct (entry_key (heap w) e); by rewrite IH.
Qed.

Lemma Proto_resolve_consistent v w : consistent w -> consistent (Proto.resolve v w).1.
Proof.
  intros Hc.
  destruct (Proto_resolve_cases v w)
    as [->|(k & w1 & _ & _ & _ & -> & Ha & Hn & _)]; simpl.
  - by apply resolve_consistent.
  - by apply (consistent_same w).
Qed.

Lemma Proto_Injection_loop_consistent fuel ents b w :
  consistent w -> consistent (Proto.Injection_loop fuel ents b w).1.
Proof.
  revert b w. induction ents as [|v rest IH]; intros b w Hc; simpl; [done|].
  pose proof (Proto_resolve_consistent v w Hc) as Hr.
  destruct (Proto.resolve v w) as [w1 [[key a]|e]]; simpl in *; [|done].
  destruct (Proto.useRecoilState fuel (scope b) a w1) as [[x st]|e]; simpl; [|done].
  by apply IH.
Qed.

Lemma Proto_Injection_loop_bound fuel ents b0 w w' b :
  Proto.Injection_loop fuel ents b0 w = (w', Ok b) ->
  (forall k, is_Some (dollar b !! k) <->
             k ∈ entry_keys (heap w) ents \/ is_Some (dollar b0 !! k)) /\
  (forall k, is_Some (setters b !! k) <->
             k ∈ entry_keys (heap w) ents \/ is_Some (setters b0 !! k)) /\
  ((forall k a, setters b0 !! k = Some a -> atoms w !! k = Some a) ->
   forall k a, setters b !! k = Some a -> atoms w' !! k = Some a).
Proof.
  revert b0 w. induction ents as [|v rest IH]; intros b0 w Hrun; simpl in Hrun.
  - injection Hrun as <- <-. unfold entry_keys. simpl.
    repeat split; try (intros [H|H]; [by apply elem_of_nil in H|done]); auto.
  - pose proof (Proto_resolve_key v w) as Hkey.
    pose proof (Proto_resolve_handle v w) as Hh.
    pose proof (Proto_resolve_keeps v w) as Hkeep.
    pose proof (Proto_entry_keys_heap v w rest) as Hks.
    destruct (Proto.resolve v w) as [w1 [[key sl]|e]]; [|done]. simpl in Hkeep, Hks.
    specialize (Hkey w1 key sl eq_refl).
    destruct (Proto.useRecoilState fuel (scope b0) sl w1) as [[x a]|e] eqn:Eh; [|done].
    apply Proto_hook_own in Eh as ->.
    specialize (Hh w1 key a eq_refl).
    destruct (IH _ _ Hrun) as (Hd & Hs & Ha). simpl in Hd, Hs, Ha.
    assert (forall k, k ∈ entry_keys (heap w) (v :: rest) <->
                      k = key \/ k ∈ entry_keys (heap w) rest) as Hmem.
    { intros k. unfold entry_keys. simpl. rewrite Hkey. simpl. apply elem_of_cons. }
    rewrite Hks in Hd, Hs.
    split; [|split].
    + intros k. rewrite Hd, Hmem.
      destruct (decide (key = k)) as [->|Hne].
      * rewrite lookup_insert_eq. split; [auto|]. intros _. right. by eexists.
      * rewrite lookup_insert_ne by done. split; [intros [?|?]; auto|].
        intros [[->|?]|?]; [done|auto|auto].
    + intros k. rewrite Hs, Hmem.
      destruct (decide (key = k)) as [->|Hne].
      * rewrite lookup_insert_eq. split; [auto|]. intros _. right. by eexists.
      * rewrite lookup_insert_ne by done. split; [intros [?|?]; auto|].
        intros [[->|?]|?]; [done|auto|auto].
    + intros H0. apply Ha. intros k a'.
      destruct (decide (key = k)) as [->|Hne].
      * rewrite lookup_insert_eq. by intros [= <-].
      * rewrite lookup_insert_ne by done. intros Hk.
        by destruct (Hkeep k a' (H0 k a' Hk)).
Qed.

End Bound.

(** ** No cell under an inherited name *)

Section PlainRegistry.

Lemma plain_registry_empty : plain_registry empty_world.
Proof. intros k _. apply lookup_empty. Qed.

Lemma plain_registry_register key a (w w' : World) :
  Proto.inherited key = false -> atoms w' = <[key := a]> (atoms w) ->
  plain_registry w -> plain_registry w'.
Proof.
  intros Hi Ha Hp k Hk. rewrite Ha, lookup_insert_ne; [by apply Hp|].
  intros ->. congruence.
Qed.

Lemma plain_registry_same (w w' : World) :
  atoms w' = atoms w -> plain_registry w -> plain_registry w'.
Proof. intros Ha Hp k Hk. rewrite Ha. by apply Hp. Qed.

Lemma Proto_Path_plain defaults w :
  plain_registry w -> plain_registry (Proto.Path defaults w).
Proof.
  unfold Proto.Path. revert w. induction defaults as [|kd ds IH]; intros w Hp; [done|].
  simpl. apply IH. unfold Proto.Path_step, Proto.read.
  destruct (atoms w !! kd.1); [done|].
  destruct (Proto.inherited kd.1) eqn:Ei; [done|].
  by apply (plain_registry_register kd.1 (RecoilState kd.1) w).
Qed.

Lemma Proto_resolve_leaf_plain key w :
  plain_registry w -> plain_registry (Proto.resolve_leaf key w).1.
Proof.
  intros Hp. unfold Proto.resolve_leaf, Proto.read. simpl.
  destruct (atoms w !! key); [done|].
  destruct (Proto.inherited key) eqn:Ei; [done|].
  by apply (plain_registry_register key (RecoilState key) w).
Qed.

Lemma Proto_resolve_plain v w :
  plain_registry w -> plain_registry (Proto.resolve v w).1.
Proof.
  intros Hp. destruct v as [k|l]; unfold Proto.resolve.
  - pose proof (Proto_resolve_leaf_plain k w Hp) as H.
    by destruct (Proto.resolve_leaf k w).
  - destruct (heap w !! l) as [o|]; [|done].
    destruct (spec_get o) as [g|].
    + unfold Proto.resolve_computed, Proto.read. simpl.
      destruct (atoms w !! spec_key o); [done|].
      destruct (Proto.inherited (spec_key o)) eqn:Ei; [done|].
      by apply (plain_registry_register (spec_key o) (RecoilValueReadOnly (spec_key o)) w).
    + pose proof (Proto_resolve_leaf_plain (spec_key o) w Hp) as H.
      by destruct (Proto.resolve_leaf (spec_key o) w).
Qed.

(** The registry never has an own property under an inherited name, so
    lines 68 and 69 never assign under one. *)
Lemma Proto_Injection_loop_plain fuel ents b w :
  plain_registry w ->
  plain_registry (Proto.Injection_loop fuel ents b w).1 /\
  forall w' b' k, Proto.Injection_loop fuel ents b w = (w', Ok b') ->
    Proto.inherited k = true ->
    dollar b' !! k = dollar b !! k /\ setters b' !! k = setters b !! k.
Proof.
  revert b w. induction ents as [|v rest IH]; intros b w Hp; simpl.
  - split; [done|]. by intros w' b' k [= <- <-].
  - pose proof (Proto_resolve_plain v w Hp) as Hp1.
    pose proof (Proto_resolve_handle v w) as Hh.
    destruct (Proto.resolve v w) as [w1 [[key sl]|e]]; simpl in *; [|done].
    destruct (Proto.useRecoilState fuel (scope b) sl w1) as [[x a]|e] eqn:Eh; [|done].
    apply Proto_hook_own in Eh as ->. specialize (Hh w1 key a eq_refl).
    destruct (IH (mkBinding (<[key:=x]> (dollar b)) (<[key:=a]> (setters b)) (scope b))
                 w1 Hp1) as [Hp' Hb].
    split; [exact Hp'|]. intros w' b' k Hrun Hk.
    destruct (Hb w' b' k Hrun Hk) as [-> ->]. simpl.
    assert (key <> k) as Hne by (intros ->; rewrite (Hp1 k Hk) in Hh; done).
    by rewrite !lookup_insert_ne.
Qed.

End PlainRegistry.

(** After a render that returned, [$] and [setters] have an own entry
    for exactly the keys of the array, and each setter is the one of the
    handle the registry files under its key.  So on the key of an entry
    [set(v, k)] returns when the cell is a leaf and is refused by the
    engine when the cell is computed; on any other key it throws a
    [TypeError], unless the key names a member of [Object.prototype]:
    then [set] calls that member. *)
Theorem render_binds_the_keys_of_the_array fuel ents sc w w' b :
  consistent w ->
  Proto.Injection fuel ents sc w = (w', Ok b) ->
  (forall k, is_Some (dollar b !! k) <-> k ∈ entry_keys (heap w) ents) /\
  (forall k, setters b !! k =
             if decide (k ∈ entry_keys (heap w) ents) then atoms w' !! k else None) /\
  (forall k, k ∈ entry_keys (heap w) ents -> is_Some (atoms w' !! k)) /\
  (forall k v s, k ∈ entry_keys (heap w) ents ->
     ((Proto.set b v k s).2 = Ok tt <-> exists d, nodes w' !! k = Some (AtomNode d)) /\
     ((Proto.set b v k s).2 = Throw ReadOnlyRecoilValue <->
        exists g, nodes w' !! k = Some (SelectorNode g))) /\
  (forall k v s, k ∉ entry_keys (heap w) ents ->
     (Proto.set b v k s).2 =
       if Proto.inherited k then Proto.call_member k v else Throw TypeError).
Proof.
  intros Hc Hrun.
  pose proof (Proto_Injection_loop_consistent fuel ents (mkBinding ∅ ∅ sc) w Hc) as Hc'.
  unfold Proto.Injection in Hrun. rewrite Hrun in Hc'. simpl in Hc'.
  destruct (Proto_Injection_loop_bound _ _ _ _ _ _ Hrun) as (Hd & Hs & Ha). simpl in *.
  assert (forall k, setters b !! k =
            if decide (k ∈ entry_keys (heap w) ents) then atoms w' !! k else None) as Hset.
  { intros k. specialize (Hs k). rewrite lookup_empty in Hs.
    destruct (decide (k ∈ entry_keys (heap w) ents)) as [Hin|Hout].
    - destruct (proj2 Hs (or_introl Hin)) as [a Hk]. rewrite Hk. symmetry.
      apply (Ha ltac:(intros k0 a0; by rewrite lookup_empty) k a Hk).
    - destruct (setters b !! k) eqn:E; [|done].
      destruct (proj1 Hs ltac:(by eexists)) as [?|[? [=]]]; done. }
  assert (forall k, k ∈ entry_keys (heap w) ents -> is_Some (atoms w' !! k)) as Hreg.
  { intros k Hin. specialize (Hset k). rewrite decide_True in Hset by done.
    rewrite <- Hset. apply Hs. by left. }
  split; [|split; [done|split; [done|split]]].
  { intros k. rewrite Hd, lookup_empty. split; [intros [?|[? [=]]]; done|auto]. }
  - intros k v s Hin. destruct (Hreg k Hin) as [a Hk].
    assert (setters b !! k = Some a) as Hsk by (by rewrite Hset, decide_True).
    destruct (Hc' k a Hk) as [[-> [d Hn]]|[-> [g Hn]]].
    + rewrite (Proto_set_atom b v k k s Hsk). simpl. split; split; try done; eauto.
      intros [g Hg]. congruence.
    + rewrite (Proto_set_selector b v k k s Hsk). simpl. split; split; try done; eauto.
      intros [d Hd']. congruence.
  - intros k v s Hout.
    assert (setters b !! k = None) as Hsk by (by rewrite Hset, decide_False).
    by rewrite (Proto_set_no_setter b v k s Hsk).
Qed.

(** The README's selector next to the atom it reads: [set] returns on
    ["atom"], is refused on ["selector"], throws a [TypeError] on a key
    the array does not name, and returns on ["valueOf"]. *)
Lemma render_binds_the_keys_of_the_array_readme :
  let w := with_heap <[0%nat := selector_spec]>
             (Proto.Roid [("atom", VNum 1)] None None empty_world).1 in
  let r := Proto.Injection 1 [Key "atom"; Obj 0] 0 w in
  let b := mkBinding {["atom" := VNum 1; "selector" := VNum 2]}
             {["atom" := RecoilState "atom"; "selector" := RecoilValueReadOnly "selector"]} 0 in
  let s := Proto.mkSession Proto.empty_dict Proto.ObjectPrototype r.1 in
  consistent w /\ r = (r.1, Ok b) /\
  (Proto.set b (VNum 5) "atom" s).2 = Ok tt /\
  (Proto.set b (VNum 5) "selector" s).2 = Throw ReadOnlyRecoilValue /\
  (Proto.set b (VNum 5) "other" s).2 = Throw TypeError /\
  (Proto.set b (VNum 5) "valueOf" s).2 = Ok tt.
Proof.
  intros w r b s.
  assert (consistent w) as Hc.
  { apply (consistent_same (Roid [("atom", VNum 1)] None None empty_world).1); try done.
    apply Roid_consistent, consistent_empty. }
  assert (r = (r.1, Ok b)) as Hr by (vm_compute; reflexivity).
  destruct (render_binds_the_keys_of_the_array 1 [Key "atom"; Obj 0] 0 w r.1 b Hc Hr)
    as (_ & _ & _ & Hin & Hout).
  assert (entry_keys (heap w) [Key "atom"; Obj 0] = ["atom"; "selector"]) as Hk
    by (vm_compute; reflexivity).
  rewrite Hk in Hin, Hout.
  assert (forall k, k ∉ ["atom"; "selector"] <-> k <> "atom" /\ k <> "selector") as Hnot.
  { intros k. rewrite !elem_of_cons, elem_of_nil. tauto. }
  split; [exact Hc|]. split; [exact Hr|]. split; [|split; [|split]].
  - apply (Hin "atom" (VNum 5) s); [apply elem_of_cons; by left|].
    exists (VNum 1). vm_compute. reflexivity.
  - apply (Hin "selector" (VNum 5) s);
      [apply elem_of_cons; right; apply elem_of_cons; by left|].
    exists (Wrapped (UserFn atom_plus_1)). vm_compute. reflexivity.
  - rewrite (Hout "other" (VNum 5) s) by (by apply Hnot). reflexivity.
  - rewrite (Hout "valueOf" (VNum 5) s) by (by apply Hnot). reflexivity.
Defined.

(** ** Renders of leaf entries *)

Section Leaves.

Lemma is_leaf_entry_key h v :
  is_leaf_entry h v = true ->
  exists key, leaf_entry h v key /\ entry_key h v = Some key.
Proof.
  destruct v as [k|l]; simpl; [by exists k|].
  destruct (h !! l) as [o|]; [|done].
  destruct (spec_get o) eqn:E; [done|]. intros _.
  exists (spec_key o). split; [by exists o|done].
Qed.

Lemma resolve_registered_leaf v w key a :
  leaf_entry (heap w) v key -> atoms w !! key = Some a ->
  resolve v w = (w, Ok (key, a)).
Proof.
  intros Hv Ha. destruct v as [k|l]; simpl in *.
  - subst k. unfold resolve_leaf. by rewrite Ha.
  - destruct Hv as (o & -> & -> & <-). unfold resolve_leaf. by rewrite Ha.
Qed.

Lemma only_leaves_register key w :
  only_leaves w -> atoms w !! key = None ->
  only_leaves (with_atoms <[key := RecoilState key]> (with_nodes <[key := AtomNode VNull]> w)).
Proof.
  intros Hc Ha k a. simpl. destruct (decide (key = k)) as [->|Hne].
  - rewrite !lookup_insert_eq. intros [= <-]. eauto.
  - rewrite !lookup_insert_ne by done. apply Hc.
Qed.

Lemma leaf_value_register key w store k :
  atoms w !! key = None ->
  leaf_value (with_atoms <[key := RecoilState key]> (with_nodes <[key := AtomNode VNull]> w))
             store k
    = leaf_value w store k.
Proof.
  intros Ha. unfold leaf_value. simpl. destruct (decide (key = k)) as [->|Hne].
  - by rewrite !lookup_insert_eq, Ha.
  - by rewrite !lookup_insert_ne.
Qed.

Lemma leaf_value_registered w store k d :
  atoms w !! k = Some (RecoilState k) -> nodes w !! k = Some (AtomNode d) ->
  leaf_value w store k = default d (store !! k).
Proof. intros Ha Hn. unfold leaf_value. by rewrite Ha, Hn. Qed.

Lemma Injection_loop_leaves fuel ents b0 w store :
  only_leaves w -> stores w !! scope b0 = Some store ->
  Forall (fun v => is_leaf_entry (heap w) v = true) ents ->
  exists w' b,
    Injection_loop fuel ents b0 w = (w', Ok b) /\
    only_leaves w' /\ stores w' = stores w /\ heap w' = heap w /\ refs w' = refs w /\
    scope b = scope b0 /\
    (forall k, leaf_value w' store k = leaf_value w store k) /\
    (forall k, dollar b !! k =
       if decide (k ∈ entry_keys (heap w) ents) then Some (leaf_value w store k)
       else dollar b0 !! k) /\
    (forall k, setters b !! k =
       if decide (k ∈ entry_keys (heap w) ents) then Some (RecoilState k)
       else setters b0 !! k) /\
    (forall k, atoms w' !! k =
       match atoms w !! k with
       | Some a => Some a
       | None => if decide (k ∈ entry_keys (heap w) ents) then Some (RecoilState k)
                 else None
       end) /\
    (forall k, nodes w' !! k =
       match atoms w !! k with
       | Some _ => nodes w !! k
       | None => if decide (k ∈ entry_keys (heap w) ents) then Some (AtomNode VNull)
                 else nodes w !! k
       end).
Proof.
  revert b0 w. induction ents as [|v rest IH]; intros b0 w Hl Hs Hents.
  - exists w, b0. do 7 (split; [done|]).
    repeat split; intros k;
      (destruct (decide (k ∈ entry_keys (heap w) [])) as [Hin|];
       [by apply elem_of_nil in Hin|]); by destruct (atoms w !! k).
  - apply Forall_cons in Hents as [Hv Hrest].
    destruct (is_leaf_entry_key _ _ Hv) as (key & Hleaf & Hkey).
    assert (forall k, k ∈ entry_keys (heap w) (v :: rest) <->
                      k = key \/ k ∈ entry_keys (heap w) rest) as Hmem.
    { intros k. unfold entry_keys. csimpl. rewrite Hkey. apply elem_of_cons. }
    assert (forall (A : Type) (k : string) (x y : A),
              k <> key ->
              (if decide (k ∈ entry_keys (heap w) (v :: rest)) then x else y) =
              (if decide (k ∈ entry_keys (heap w) rest) then x else y)) as Hif.
    { intros A k x y Hne.
      destruct (decide (k ∈ entry_keys (heap w) rest)) as [Hin|Hout].
      - rewrite decide_True; [done|]. apply Hmem. by right.
      - rewrite decide_False; [done|]. intros Hin. apply Hmem in Hin as [?|?]; done. }
    assert (key ∈ entry_keys (heap w) (v :: rest)) as Hhead by (apply Hmem; by left).
    destruct (atoms w !! key) as [a|] eqn:Ha.
    + destruct (Hl key a Ha) as [-> [d Hn]].
      set (b1 := mkBinding (<[key := default d (store !! key)]> (dollar b0))
                           (<[key := RecoilState key]> (setters b0)) (scope b0)).
      destruct (IH b1 w Hl Hs Hrest)
        as (w' & b & Hrun & Hl' & Hst & Hh & Hr & Hsc & Hlv & Hd & Hset & Hat & Hnd).
      exists w', b. split.
      { simpl. rewrite (resolve_registered_leaf v w key _ Hleaf Ha).
        unfold useRecoilState.
        by rewrite (read_atom fuel (scope b0) (RecoilState key) d store w Hn Hs). }
      do 6 (split; [done|]). split; [|split; [|split]].
      * intros k. rewrite Hd. unfold b1. cbn [dollar]. destruct (decide (k = key)) as [->|Hne].
        -- destruct (decide (key ∈ entry_keys (heap w) (v :: rest))); [|done].
           rewrite lookup_insert_eq.
           rewrite (leaf_value_registered w store key d) by done.
           by destruct (decide (key ∈ entry_keys (heap w) rest)).
        -- rewrite (Hif _ k _ _ Hne). by rewrite lookup_insert_ne.
      * intros k. rewrite Hset. unfold b1. cbn [setters]. destruct (decide (k = key)) as [->|Hne].
        -- destruct (decide (key ∈ entry_keys (heap w) (v :: rest))); [|done].
           rewrite lookup_insert_eq.
           by destruct (decide (key ∈ entry_keys (heap w) rest)).
        -- rewrite (Hif _ k _ _ Hne). by rewrite lookup_insert_ne.
      * intros k. rewrite Hat. destruct (decide (k = key)) as [->|Hne].
        -- by rewrite Ha.
        -- by rewrite (Hif _ k _ _ Hne).
      * intros k. rewrite Hnd. destruct (decide (k = key)) as [->|Hne].
        -- by rewrite Ha.
        -- by rewrite (Hif _ k _ _ Hne).
    + set (w1 := with_atoms <[key := RecoilState key]>
                   (with_nodes <[key := AtomNode VNull]> w)).
      set (b1 := mkBinding (<[key := default VNull (store !! key)]> (dollar b0))
                           (<[key := RecoilState key]> (setters b0)) (scope b0)).
      destruct (IH b1 w1 (only_leaves_register key w Hl Ha) Hs Hrest)
        as (w' & b & Hrun & Hl' & Hst & Hh & Hr & Hsc & Hlv & Hd & Hset & Hat & Hnd).
      exists w', b. split.
      { by rewrite (loop_fresh_leaf fuel v rest b0 w key store Hleaf Ha Hs). }
      change (heap w1) with (heap w) in *.
      assert (forall k, leaf_value w1 store k = leaf_value w store k) as Hlv1
        by (intros k; by apply leaf_value_register).
      assert (atoms w1 !! key = Some (RecoilState key)) as Ha1
        by (simpl; by rewrite lookup_insert_eq).
      assert (nodes w1 !! key = Some (AtomNode VNull)) as Hn1
        by (simpl; by rewrite lookup_insert_eq).
      assert (forall k, k <> key -> atoms w1 !! k = atoms w !! k) as Ha1'
        by (intros k Hne; simpl; by rewrite lookup_insert_ne).
      assert (forall k, k <> key -> nodes w1 !! k = nodes w !! k) as Hn1'
        by (intros k Hne; simpl; by rewrite lookup_insert_ne).
      do 5 (split; [done|]). split; [|split; [|split; [|split]]].
      * intros k. by rewrite Hlv, Hlv1.
      * intros k. rewrite Hd, Hlv1. unfold b1. cbn [dollar]. destruct (decide (k = key)) as [->|Hne].
        -- destruct (decide (key ∈ entry_keys (heap w) (v :: rest))); [|done].
           rewrite lookup_insert_eq.
           unfold leaf_value. rewrite Ha.
           by destruct (decide (key ∈ entry_keys (heap w) rest)).
        -- rewrite (Hif _ k _ _ Hne). by rewrite lookup_insert_ne.
      * intros k. rewrite Hset. unfold b1. cbn [setters]. destruct (decide (k = key)) as [->|Hne].
        -- destruct (decide (key ∈ entry_keys (heap w) (v :: rest))); [|done].
           rewrite lookup_insert_eq.
           by destruct (decide (key ∈ entry_keys (heap w) rest)).
        -- rewrite (Hif _ k _ _ Hne). by rewrite lookup_insert_ne.
      * intros k. rewrite Hat. destruct (decide (k = key)) as [->|Hne].
        -- rewrite Ha1, Ha.
           by destruct (decide (key ∈ entry_keys (heap w) (v :: rest))).
        -- by rewrite (Ha1' k Hne), (Hif _ k _ _ Hne).
      * intros k. rewrite Hnd. destruct (decide (k = key)) as [->|Hne].
        -- rewrite Ha1, Hn1, Ha.
           by destruct (decide (key ∈ entry_keys (heap w) (v :: rest))).
        -- by rewrite (Ha1' k Hne), (Hn1' k Hne), (Hif _ k _ _ Hne).
Qed.

Lemma only_leaves_empty : only_leaves empty_world.
Proof. intros k a H. simpl in H. by rewrite lookup_empty in H. Qed.

Lemma only_leaves_same w w' :
  atoms w' = atoms w -> nodes w' = nodes w -> only_leaves w -> only_leaves w'.
Proof. intros Ha Hn Hc k a. rewrite Ha, Hn. apply Hc. Qed.

Lemma Path_only_leaves defaults w : only_leaves w -> only_leaves (Path defaults w).
Proof.
  unfold Path. revert w. induction defaults as [|kd ds IH]; intros w Hc; simpl; [done|].
  apply IH. unfold Path_step. destruct (atoms w !! kd.1) eqn:E; [done|].
  intros k a. simpl. destruct (decide (kd.1 = k)) as [<-|Hne].
  - rewrite !lookup_insert_eq. intros [= <-]. eauto.
  - rewrite !lookup_insert_ne by done. apply Hc.
Qed.

Lemma Roid_only_leaves defaults override parent w :
  only_leaves w -> only_leaves (Roid defaults override parent w).1.
Proof.
  intros Hc. unfold Roid, RecoilRoot.
  destruct parent, (default true override); simpl; apply Path_only_leaves;
    by apply (only_leaves_same w).
Qed.

Lemma readme_world_only_leaves : only_leaves readme_world.
Proof.
  apply (only_leaves_same (Roid [("state_1", VNum 1)] None None empty_world).1); try done.
  apply Roid_only_leaves, only_leaves_empty.
Qed.

Lemma Proto_hook_leaf fuel sc a d w :
  nodes w !! rv_key a = Some (AtomNode d) ->
  Proto.useRecoilState fuel sc (Proto.Own a) w = useRecoilState fuel sc a w.
Proof.
  intros Hn. unfold Proto.useRecoilState, useRecoilState, Proto.useRecoilValue, useRecoilValue.
  destruct (stores w !! sc) as [store|]; [|done].
  destruct fuel; simpl; by rewrite Hn.
Qed.

(** On names that are not inherited, and while only leaf cells are
    registered, the two readings of the loop agree. *)
Lemma Proto_leaf_render fuel ents b0 w :
  only_leaves w ->
  Forall (fun v => is_leaf_entry (heap w) v = true) ents ->
  (forall k, k ∈ entry_keys (heap w) ents -> Proto.inherited k = false) ->
  Proto.Injection_loop fuel ents b0 w = Injection_loop fuel ents b0 w.
Proof.
  revert b0 w. induction ents as [|v rest IH]; intros b0 w Hl Hents Hplain; [done|].
  apply Forall_cons in Hents as [Hv Hrest].
  destruct (is_leaf_entry_key _ _ Hv) as (key & Hleaf & Hkey).
  assert (forall k, k ∈ entry_keys (heap w) rest -> Proto.inherited k = false) as Hplain'.
  { intros k Hin. apply Hplain. unfold entry_keys. csimpl. rewrite Hkey.
    apply elem_of_cons. by right. }
  assert (Proto.inherited key = false) as Hi.
  { apply Hplain. unfold entry_keys. csimpl. rewrite Hkey. apply elem_of_cons. by left. }
  cbn [Proto.Injection_loop Injection_loop].
  rewrite Proto_resolve_own by (intros k; rewrite Hkey; intros [= <-]; by right).
  destruct (atoms w !! key) as [a|] eqn:Ha.
  - destruct (Hl key a Ha) as [-> [d Hn]].
    rewrite (resolve_registered_leaf v w key _ Hleaf Ha). unfold own_result. cbn [fst snd].
    rewrite (Proto_hook_leaf fuel (scope b0) (RecoilState key) d w Hn).
    destruct (useRecoilState fuel (scope b0) (RecoilState key) w) as [[x st]|e]; [|done].
    by apply IH.
  - rewrite (resolve_fresh_leaf v w key Hleaf Ha). unfold own_result. cbn [fst snd].
    set (w1 := with_atoms <[key := RecoilState key]> (with_nodes <[key := AtomNode VNull]> w)).
    assert (nodes w1 !! rv_key (RecoilState key) = Some (AtomNode VNull)) as Hn
      by (simpl; by rewrite lookup_insert_eq).
    rewrite (Proto_hook_leaf fuel (scope b0) (RecoilState key) VNull w1 Hn).
    destruct (useRecoilState fuel (scope b0) (RecoilState key) w1) as [[x st]|e]; [|done].
    apply IH; [by apply only_leaves_register|done|done].
Qed.

Lemma Proto_set_then_render_leaves fuel ents sc w store k :
  only_leaves w -> stores w !! sc = Some store ->
  Forall (fun v => is_leaf_entry (heap w) v = true) ents ->
  (forall k, k ∈ entry_keys (heap w) ents -> Proto.inherited k = false) ->
  k ∈ entry_keys (heap w) ents ->
  exists w' b,
    Proto.Injection fuel ents sc w = (w', Ok b) /\
    forall v upd rp,
      exists s2 w2 b2,
        Proto.set b v k (Proto.mkSession upd rp w') = (s2, Ok tt) /\
        Proto.updated s2 = Proto.mkDict (<[k := v]> (Proto.own upd)) (Proto.proto upd) /\
        Proto.Injection fuel ents sc (Proto.world s2) = (w2, Ok b2) /\
        dollar b2 = <[k := v]> (dollar b) /\ setters b2 = setters b.
Proof.
  intros Hl Hs Hents Hplain Hk.
  destruct (Injection_loop_leaves fuel ents (mkBinding ∅ ∅ sc) w store Hl Hs Hents)
    as (w' & b & Hrun & Hl' & Hst & Hh & Hr & Hsc & Hlv & Hd & Hset & _).
  cbn [dollar setters scope] in Hd, Hset, Hsc. exists w', b. split.
  { unfold Proto.Injection. by rewrite Proto_leaf_render. }
  intros v upd rp.
  assert (setters b !! k = Some (RecoilState k)) as Hsk
    by (by rewrite Hset, decide_True).
  set (w1 := with_stores (alter <[k := v]> (scope b)) w').
  assert (only_leaves w1) as Hl1 by exact Hl'.
  assert (stores w1 !! sc = Some (<[k := v]> store)) as Hs1.
  { simpl. rewrite Hsc, list_lookup_alter_eq, Hst, Hs. done. }
  assert (Forall (fun v0 => is_leaf_entry (heap w1) v0 = true) ents) as Hents1.
  { change (heap w1) with (heap w'). by rewrite Hh. }
  assert (forall k0, k0 ∈ entry_keys (heap w1) ents -> Proto.inherited k0 = false) as Hplain1.
  { change (heap w1) with (heap w'). by rewrite Hh. }
  destruct (Injection_loop_leaves fuel ents (mkBinding ∅ ∅ sc) w1 (<[k := v]> store)
              Hl1 Hs1 Hents1)
    as (w2 & b2 & Hrun2 & _ & _ & _ & _ & _ & _ & Hd2 & Hset2 & _).
  cbn [dollar setters] in Hd2, Hset2.
  change (heap w1) with (heap w') in Hd2, Hset2. rewrite Hh in Hd2, Hset2.
  exists (Proto.mkSession (Proto.dict_write upd k v) rp w1), w2, b2.
  split; [by rewrite (Proto_set_atom b v k k (Proto.mkSession upd rp w') Hsk)|].
  split; [simpl; apply Proto_dict_write_own, not_inherited_proto; by apply Hplain|].
  split; [unfold Proto.Injection; simpl; by rewrite Proto_leaf_render|]. split.
  - apply map_eq. intros k'. rewrite Hd2, lookup_empty.
    destruct (decide (k = k')) as [<-|Hne].
    + rewrite lookup_insert_eq, decide_True by done. f_equal.
      unfold leaf_value. rewrite lookup_insert_eq.
      by destruct (atoms w1 !! k), (nodes w1 !! k) as [[]|].
    + rewrite lookup_insert_ne by done. rewrite Hd, lookup_empty.
      destruct (decide (k' ∈ entry_keys (heap w) ents)); [|done]. f_equal.
      rewrite <- Hlv. unfold leaf_value. rewrite lookup_insert_ne by done. done.
  - apply map_eq. intros k'. by rewrite Hset2, Hset.
Qed.

Lemma readme_App_plain k :
  k ∈ entry_keys (heap readme_world) readme_App -> Proto.inherited k = false.
Proof.
  change (k ∈ ["state_1"; "state_2"] -> Proto.inherited k = false).
  rewrite !elem_of_cons, elem_of_nil. by intros [->|[->|[]]].
Qed.

End Leaves.

(** While only leaf cells are registered, a render under an existing
    root of an array of keys and of objects without [get], none of them
    a name inherited from [Object.prototype], never throws; [$] maps
    each key of the array to what was written to it under that root,
    else to the default of its cell ([null] for a cell the render itself
    registers), every setter is the read-write handle of its key, and
    the render writes no cell value, no [refs] entry and no spec
    object. *)
Theorem leaf_render_reads_the_store fuel ents sc w store :
  only_leaves w -> stores w !! sc = Some store ->
  Forall (fun v => is_leaf_entry (heap w) v = true) ents ->
  (forall k, k ∈ entry_keys (heap w) ents -> Proto.inherited k = false) ->
  exists w' b,
    Proto.Injection fuel ents sc w = (w', Ok b) /\
    (forall k, dollar b !! k =
       if decide (k ∈ entry_keys (heap w) ents) then Some (leaf_value w store k)
       else None) /\
    (forall k, setters b !! k =
       if decide (k ∈ entry_keys (heap w) ents) then Some (RecoilState k) else None) /\
    scope b = sc /\
    only_leaves w' /\ stores w' = stores w /\ heap w' = heap w /\ refs w' = refs w.
Proof.
  intros Hl Hs Hents Hplain.
  destruct (Injection_loop_leaves fuel ents (mkBinding ∅ ∅ sc) w store Hl Hs Hents)
    as (w' & b & Hrun & Hl' & Hst & Hh & Hr & Hsc & _ & Hd & Hset & _).
  cbn [dollar setters] in Hd, Hset.
  exists w', b. split; [unfold Proto.Injection; by rewrite Proto_leaf_render|].
  split; [intros k; by rewrite Hd, lookup_empty|].
  split; [intros k; by rewrite Hset, lookup_empty|]. done.
Qed.

(** Under the same conditions, two arrays that name the same keys give
    the same render: the same [$] and setters and the same process state
    afterwards, whatever the order of the entries, however often a key is
    repeated, and whether it is written as a string or as an object. *)
Theorem array_order_is_irrelevant fuel ents1 ents2 sc w store :
  only_leaves w -> stores w !! sc = Some store ->
  Forall (fun v => is_leaf_entry (heap w) v = true) ents1 ->
  Forall (fun v => is_leaf_entry (heap w) v = true) ents2 ->
  (forall k, k ∈ entry_keys (heap w) ents1 -> Proto.inherited k = false) ->
  (forall k, k ∈ entry_keys (heap w) ents1 <-> k ∈ entry_keys (heap w) ents2) ->
  Proto.Injection fuel ents1 sc w = Proto.Injection fuel ents2 sc w.
Proof.
  intros Hl Hs H1 H2 Hplain Hsame.
  unfold Proto.Injection.
  rewrite !Proto_leaf_render by (try done; intros k Hk; by apply Hplain, Hsame).
  destruct (Injection_loop_leaves fuel ents1 (mkBinding ∅ ∅ sc) w store Hl Hs H1)
    as (w1 & b1 & Hrun1 & _ & Hst1 & Hh1 & Hr1 & Hsc1 & _ & Hd1 & Hset1 & Hat1 & Hnd1).
  destruct (Injection_loop_leaves fuel ents2 (mkBinding ∅ ∅ sc) w store Hl Hs H2)
    as (w2 & b2 & Hrun2 & _ & Hst2 & Hh2 & Hr2 & Hsc2 & _ & Hd2 & Hset2 & Hat2 & Hnd2).
  cbn [dollar setters scope] in Hd1, Hset1, Hd2, Hset2, Hsc1, Hsc2.
  rewrite Hrun1, Hrun2.
  assert (forall (A : Type) (k : string) (x y : A),
            (if decide (k ∈ entry_keys (heap w) ents1) then x else y) =
            (if decide (k ∈ entry_keys (heap w) ents2) then x else y)) as Hif.
  { intros A k x y. destruct (decide (k ∈ entry_keys (heap w) ents2)) as [Hin|Hout].
    - rewrite decide_True; [done|]. by apply Hsame.
    - rewrite decide_False; [done|]. intros Hin. by apply Hsame in Hin. }
  assert (w1 = w2) as ->.
  { destruct w1 as [at1 rf1 nd1 st1 hp1], w2 as [at2 rf2 nd2 st2 hp2]. simpl in *.
    f_equal; try congruence.
    - apply map_eq. intros k. rewrite Hat1, Hat2. destruct (atoms w !! k); [done|apply Hif].
    - apply map_eq. intros k. rewrite Hnd1, Hnd2. destruct (atoms w !! k); [done|apply Hif]. }
  assert (b1 = b2) as ->; [|done].
  destruct b1 as [d1 s1 c1], b2 as [d2 s2 c2]. simpl in *. f_equal; try congruence.
  - apply map_eq. intros k. rewrite Hd1, Hd2. apply Hif.
  - apply map_eq. intros k. rewrite Hset1, Hset2. apply Hif.
Qed.

(** Under the same conditions, for a key [k] of the array: [set(v, k)]
    returns, and the next render of the array reads [v] in [$[k]] and
    what the render before read in every other entry of [$]; the setters
    are the same.  For [v] other than [undefined], what [get(k)] returns
    after the write is what that next render reads. *)
Theorem set_then_render fuel ents sc w store k :
  only_leaves w -> stores w !! sc = Some store ->
  Forall (fun v => is_leaf_entry (heap w) v = true) ents ->
  (forall k, k ∈ entry_keys (heap w) ents -> Proto.inherited k = false) ->
  k ∈ entry_keys (heap w) ents ->
  exists w' b,
    Proto.Injection fuel ents sc w = (w', Ok b) /\
    forall v upd rp,
      exists s2 w2 b2,
        Proto.set b v k (Proto.mkSession upd rp w') = (s2, Ok tt) /\
        Proto.updated s2 = Proto.mkDict (<[k := v]> (Proto.own upd)) (Proto.proto upd) /\
        Proto.Injection fuel ents sc (Proto.world s2) = (w2, Ok b2) /\
        dollar b2 = <[k := v]> (dollar b) /\ setters b2 = setters b /\
        (defined v = true -> Proto.Val <$> dollar b2 !! k = Some (Proto.get b s2 k)).
Proof.
  intros Hl Hs Hents Hplain Hk.
  destruct (Proto_set_then_render_leaves fuel ents sc w store k Hl Hs Hents Hplain Hk)
    as (w' & b & Hrun & Hset).
  exists w', b. split; [exact Hrun|]. intros v upd rp.
  destruct (Hset v upd rp) as (s2 & w2 & b2 & H1 & H2 & H3 & H4 & H5).
  exists s2, w2, b2. do 5 (split; [done|]).
  intros Hv. rewrite H4, lookup_insert_eq. simpl. f_equal.
  unfold Proto.get. rewrite H2.
  rewrite (Proto_dict_read_own _ k v) by (simpl; by rewrite lookup_insert_eq).
  simpl. by rewrite Hv.
Qed.

(** The README's [App]: it reads 1 for ["state_1"], which the provider
    registered, and [null] for ["state_2"], which the render registers. *)
Lemma leaf_render_reads_the_store_readme :
  only_leaves readme_world /\ stores readme_world !! 0%nat = Some ∅ /\
  Forall (fun v => is_leaf_entry (heap readme_world) v = true) readme_App /\
  exists w' b,
    Proto.Injection 0 readme_App 0 readme_world = (w', Ok b) /\
    dollar b !! "state_1" = Some (VNum 1) /\ dollar b !! "state_2" = Some VNull /\
    dollar b !! "state_3" = None /\ stores w' = stores readme_world.
Proof.
  assert (Forall (fun v => is_leaf_entry (heap readme_world) v = true) readme_App) as Hents
    by (repeat constructor).
  split; [exact readme_world_only_leaves|]. split; [reflexivity|]. split; [exact Hents|].
  destruct (leaf_render_reads_the_store 0 readme_App 0 readme_world ∅
              readme_world_only_leaves eq_refl Hents readme_App_plain)
    as (w' & b & Hrun & Hd & _ & _ & _ & Hst & _).
  exists w', b. split; [exact Hrun|].
  split; [by rewrite Hd|]. split; [by rewrite Hd|]. split; [by rewrite Hd|exact Hst].
Defined.

(** [App] and [Add] name the same two keys: they render alike. *)
Lemma array_order_is_irrelevant_readme :
  (forall k, k ∈ entry_keys (heap readme_world) readme_App <->
             k ∈ entry_keys (heap readme_world) (rev readme_Add ++ readme_Add)) /\
  Proto.Injection 0 readme_App 0 readme_world
    = Proto.Injection 0 (rev readme_Add ++ readme_Add) 0 readme_world.
Proof.
  assert (forall k, k ∈ entry_keys (heap readme_world) readme_App <->
                    k ∈ entry_keys (heap readme_world) (rev readme_Add ++ readme_Add))
    as Hsame.
  { intros k.
    change (k ∈ ["state_1"; "state_2"] <-> k ∈ ["state_2"; "state_1"; "state_1"; "state_2"]).
    rewrite !elem_of_cons, !elem_of_nil. tauto. }
  split; [exact Hsame|].
  apply (array_order_is_irrelevant 0 readme_App (rev readme_Add ++ readme_Add) 0
           readme_world ∅ readme_world_only_leaves eq_refl);
    [repeat constructor | repeat constructor | exact readme_App_plain | exact Hsame].
Defined.

(** [App] sets ["state_1"] to 6: the next render reads 6 there and
    [null], as before, for ["state_2"]. *)
Lemma set_then_render_readme :
  "state_1" ∈ entry_keys (heap readme_world) readme_App /\
  exists w' b,
    Proto.Injection 0 readme_App 0 readme_world = (w', Ok b) /\
    exists s2 w2 b2,
      Proto.set b (VNum 6) "state_1"
        (Proto.mkSession Proto.empty_dict Proto.ObjectPrototype w') = (s2, Ok tt) /\
      Proto.Injection 0 readme_App 0 (Proto.world s2) = (w2, Ok b2) /\
      dollar b2 = <["state_1" := VNum 6]> (dollar b).
Proof.
  assert ("state_1" ∈ entry_keys (heap readme_world) readme_App) as Hk.
  { change ("state_1" ∈ ["state_1"; "state_2"]). apply elem_of_cons. by left. }
  split; [exact Hk|].
  destruct (set_then_render 0 readme_App 0 readme_world ∅ "state_1"
              readme_world_only_leaves eq_refl ltac:(repeat constructor)
              readme_App_plain Hk)
    as (w' & b & Hrun & Hset).
  exists w', b. split; [exact Hrun|].
  destruct (Hset (VNum 6) Proto.empty_dict Proto.ObjectPrototype)
    as (s2 & w2 & b2 & H1 & _ & H3 & H4 & _).
  exists s2, w2, b2. split; [exact H1|]. split; [exact H3|exact H4].
Defined.

(** ** Actions: what a throw leaves behind, and what is never removed *)

Section Actions.

Variable b : Binding.

Lemma no_write_undone_refl s : no_write_undone s s.
Proof. split; eauto. Qed.

Lemma no_write_undone_trans s1 s2 s3 :
  no_write_undone s1 s2 -> no_write_undone s2 s3 -> no_write_undone s1 s3.
Proof.
  intros (Hu & Hs) (Hu' & Hs'). split; [auto|].
  intros sc st k Hst Hk. destruct (Hs sc st k Hst Hk) as (st' & Hst' & Hk'). eauto.
Qed.

Lemma dict_write_keeps d key v k :
  is_Some (Proto.own d !! k) -> is_Some (Proto.own (Proto.dict_write d key v) !! k).
Proof.
  intros Hk.
  assert (is_Some (<[key := v]> (Proto.own d) !! k)) as Hins.
  { destruct (decide (key = k)) as [->|Hne].
    - rewrite lookup_insert_eq. by eexists.
    - by rewrite lookup_insert_ne. }
  unfold Proto.dict_write.
  destruct (decide (key = "__proto__")); [|done].
  destruct (Proto.reaches_accessor d); [|done]. by destruct v.
Qed.

Lemma Proto_set_no_write_undone v key s : no_write_undone s (Proto.set b v key s).1.
Proof.
  unfold Proto.set.
  destruct (Proto.read (setters b) key) as [[k'|k']| |]; simpl;
    (split; [intros k; apply dict_write_keeps|]); simpl; eauto.
  intros sc st k Hst Hk. destruct (decide (scope b = sc)) as [<-|Hne].
  - exists (<[k' := v]> st). rewrite list_lookup_alter_eq, Hst. split; [done|].
    destruct (decide (k' = k)) as [->|Hne].
    + rewrite lookup_insert_eq. by eexists.
    + by rewrite lookup_insert_ne.
  - exists st. by rewrite list_lookup_alter_ne.
Qed.

End Actions.

(** There is no rollback.  When an action runs [a] and then throws, the
    shadow map and the process are left exactly as [a] left them; a call
    through [fn] that throws makes its caller throw at once, in the state
    the callee reached; and catching the error restores nothing. *)
Theorem writes_before_a_throw_stay b a e s :
  (run b (bind a (fun _ => Raise e)) s).1 = (run b a s).1 /\
  (exists e', (run b (bind a (fun _ => Raise e)) s).2 = Throw e') /\
  (forall func args k s' e',
     run b (fn func args) s = (s', Throw e') ->
     run b (DoFn func args k) s = (s', Throw e')) /\
  (forall k, run b (TryCatch (bind a (fun _ => Raise e)) k) s = run b k (run b a s).1).
Proof.
  assert (run b (bind a (fun _ => Raise e)) s =
          ((run b a s).1, Throw match (run b a s).2 with Ok _ => e | Throw e' => e' end))
    as Hrun.
  { rewrite run_bind. by destruct (run b a s) as [s' [r|e']]. }
  split; [by rewrite Hrun|]. split; [rewrite Hrun; by eexists|]. split.
  - intros func args k s' e' Hf. simpl. by rewrite Hf.
  - intros k. simpl. by rewrite Hrun.
Qed.

(** Neither [get], [set] nor [fn] removes what was written: after any
    action, every key that had a shadow entry still has one, and every
    cell that had a written value under some root still has one (it
    never falls back to its default).  [refs] is in the hands of the
    plain function, which can delete from it. *)
Theorem actions_remove_nothing b a s :
  no_write_undone s (Proto.run b a s).1 /\
  forall name,
    refs (Proto.world (Proto.run b (Proto.RefsDelete name (Proto.Return VUndefined)) s).1)
      !! name = None.
Proof.
  split; [|intros name; simpl; apply lookup_delete_eq].
  revert s.
  induction a as [r|e|key k IH|v key k IH|func IHf args k IH
                 |name k IH|name v k IH|name k IH|body IHb k IH]; intros s; simpl.
  - apply no_write_undone_refl.
  - apply no_write_undone_refl.
  - apply IH.
  - pose proof (Proto_set_no_write_undone b v key s) as Hs.
    destruct (Proto.set b v key s) as [s' [[]|e]]; simpl in *; [|done].
    eapply no_write_undone_trans; [exact Hs | apply IH].
  - pose proof (IHf (mkBag args (or_else (first args) empty_object)) s) as Hf.
    fold (Proto.fn func args) in Hf.
    destruct (Proto.run b (Proto.fn func args) s) as [s' [r|e]]; simpl in *; [|done].
    eapply no_write_undone_trans; [exact Hf | apply IH].
  - apply IH.
  - eapply no_write_undone_trans; [|apply IH]. split; simpl; eauto.
  - eapply no_write_undone_trans; [|apply IH]. split; simpl; eauto.
  - eapply no_write_undone_trans; [apply IHb | apply IH].
Qed.

(** ** Wrapping the [get] field again and again *)

(** For a function that uses its [get] only by calling it, the wrappers
    that later renders add change nothing: called by the engine, the
    field wrapped [n] more times computes what the field wrapped once
    computes, in every registry and with every engine [get]. *)
Theorem rewrapping_is_harmless g n registry engine_get :
  extensional (user_fn g) ->
  call_getfn registry (Nat.iter n Wrapped (Wrapped g)) engine_get
    = call_getfn registry (Wrapped g) engine_get.
Proof.
  intros Hext. rewrite !call_getfn_depth.
  assert (user_fn (Nat.iter n Wrapped (Wrapped g)) = user_fn g) as ->
    by (induction n as [|n IH]; [done|exact IH]).
  assert (depth (Nat.iter n Wrapped (Wrapped g)) = S (n + depth g)) as ->
    by (induction n as [|n IH]; [done|simpl; by rewrite IH]).
  apply Hext. intros x. simpl depth. by rewrite !lookup_or_pass_iter.
Qed.

(** The README's selector after three more renders. *)
Lemma rewrapping_is_harmless_readme :
  extensional atom_plus_1 /\
  forall registry engine_get,
    call_getfn registry (Wrapped (Wrapped (Wrapped (Wrapped (UserFn atom_plus_1)))))
      engine_get
    = call_getfn registry (Wrapped (UserFn atom_plus_1)) engine_get.
Proof.
  assert (extensional atom_plus_1) as Hext.
  { intros g1 g2 H. unfold atom_plus_1. by rewrite H. }
  split; [exact Hext|]. intros registry engine_get.
  exact (rewrapping_is_harmless (UserFn atom_plus_1) 3 registry engine_get Hext).
Defined.

(** ** Providers and roots *)

Section Providers.

Lemma Roid_world defaults override parent w :
  exists w0,
    (Roid defaults override parent w).1 = Path defaults w0 /\
    atoms w0 = atoms w /\ nodes w0 = nodes w /\ heap w0 = heap w /\ refs w0 = refs w /\
    (forall i st, stores w !! i = Some st -> stores w0 !! i = Some st).
Proof.
  unfold Roid, RecoilRoot. destruct parent, (default true override); simpl;
    eexists; (split; [reflexivity|]); simpl; repeat split; auto;
    intros i st Hi; by apply lookup_app_l_Some.
Qed.

Lemma Roid_inherits defaults p w :
  Roid defaults (Some false) (Some p) w = (Path defaults w, p).
Proof. done. Qed.

Lemma resolve_first v w key :
  entry_key (heap w) v = Some key ->
  exists w1 a,
    resolve v w = (w1, Ok (key, a)) /\ atoms w1 !! key = Some a /\
    stores w1 = stores w /\
    forall k, k <> key -> atoms w1 !! k = atoms w !! k.
Proof.
  intros Hk. pose proof (resolve_stores v w) as Hst.
  destruct v as [k0|l]; simpl in *.
  - injection Hk as ->. unfold resolve_leaf in *.
    destruct (atoms w !! key) as [a|] eqn:Ha; simpl in *.
    + exists w, a. by repeat split.
    + eexists _, _. split; [reflexivity|]. simpl. rewrite lookup_insert_eq.
      split; [done|]. split; [done|]. intros k Hne. by rewrite lookup_insert_ne.
  - destruct (heap w !! l) as [o|]; [|done]. simpl in Hk. injection Hk as <-.
    destruct (spec_get o) as [g|].
    + unfold resolve_computed in *. simpl in *.
      destruct (atoms w !! spec_key o) as [a|] eqn:Ha; simpl in *.
      * eexists _, a. split; [reflexivity|]. by repeat split.
      * eexists _, _. split; [reflexivity|]. simpl. rewrite lookup_insert_eq.
        split; [done|]. split; [done|]. intros k Hne. by rewrite lookup_insert_ne.
    + unfold resolve_leaf in *.
      destruct (atoms w !! spec_key o) as [a|] eqn:Ha; simpl in *.
      * exists w, a. by repeat split.
      * eexists _, _. split; [reflexivity|]. simpl. rewrite lookup_insert_eq.
        split; [done|]. split; [done|]. intros k Hne. by rewrite lookup_insert_ne.
Qed.

End Providers.

(** Defaults are first come, first served for the whole process, not per
    root: once a provider has registered [k], which is no name inherited
    from [Object.prototype], with default [d1], a later provider that
    owns a root of its own registers nothing for [k], whatever default
    it gives, and a component under it reads [d1]. *)
Theorem first_default_wins_across_roots defs1 defs2 ov1 ov2 p1 p2 w k d1 :
  NoDup defs1.*1 -> (k, d1) ∈ defs1 -> atoms w !! k = None ->
  Proto.inherited k = false -> ov2 <> Some false ->
  let m1 := Proto.Roid defs1 ov1 p1 w in
  let m2 := Proto.Roid defs2 ov2 p2 m1.1 in
  nodes m2.1 !! k = Some (AtomNode d1) /\
  forall fuel v, entry_key (heap w) v = Some k ->
    observed (Proto.Injection fuel [v] m2.2 m2.1) k = Some d1.
Proof.
  intros Hnd Hin Ha Hi Hov m1 m2. unfold m2, m1. rewrite !Proto_Roid.
  set (f1 := filter registrable defs1). set (f2 := filter registrable defs2).
  set (n1 := Roid f1 ov1 p1 w). set (n2 := Roid f2 ov2 p2 n1.1).
  assert (NoDup f1.*1) as Hnd1 by (by apply NoDup_registrable_fst).
  assert ((k, d1) ∈ f1) as Hin1 by (by apply list_elem_of_filter).
  destruct (Roid_world f1 ov1 p1 w) as (w0 & E1 & Ha0 & Hn0 & Hh0 & _).
  fold n1 in E1.
  assert (atoms n1.1 !! k = Some (RecoilState k)) as Ha1.
  { rewrite E1, Path_atoms, Ha0, Ha. rewrite decide_True; [done|].
    apply list_elem_of_fmap. by exists (k, d1). }
  assert (nodes n1.1 !! k = Some (AtomNode d1)) as Hn1.
  { rewrite E1. apply Path_nodes_fresh; [done|done|by rewrite Ha0]. }
  assert (heap n1.1 = heap w) as Hh1.
  { rewrite E1. destruct (Path_frame f1 w0) as (_ & _ & ->). done. }
  destruct (Roid_world f2 ov2 p2 n1.1) as (w0' & E2 & Ha0' & Hn0' & Hh0' & _).
  fold n2 in E2.
  assert (atoms w0' !! k = Some (RecoilState k)) as Ha1' by (by rewrite Ha0').
  destruct (Path_keeps f2 w0' k _ Ha1') as [Ha2 Hn2]. rewrite <- E2 in Ha2, Hn2.
  rewrite Hn0', Hn1 in Hn2.
  assert (heap n2.1 = heap w) as Hh2.
  { rewrite E2. destruct (Path_frame f2 w0') as (_ & _ & ->). congruence. }
  split; [exact Hn2|]. intros fuel v Hv.
  destruct (Roid_isolated f2 ov2 p2 n1.1 Hov) as [Hsc Hst]. fold n2 in Hsc, Hst.
  assert (stores n2.1 !! n2.2 = Some ∅) as Hs.
  { rewrite Hst, Hsc. by rewrite lookup_app_r, Nat.sub_diag. }
  unfold Proto.Injection.
  destruct (Proto_loop_registered_atom fuel v [] (mkBinding ∅ ∅ n2.2) n2.1 k
              (RecoilState k) d1 ∅)
    as (w1 & Hrun & _); simpl; try done.
  { by rewrite Hh2. }
  simpl in Hrun. rewrite Hrun. unfold observed. simpl. by rewrite lookup_insert_eq.
Qed.

(** The siblings [<Roid defaults={{k: 1}}>] and [<Roid defaults={{k: 2}}>]:
    a component under the second reads 1. *)
Lemma first_default_wins_across_roots_siblings :
  NoDup [("k", VNum 1)].*1 /\
  observed (Proto.Injection 0 [Key "k"]
              (Proto.Roid [("k", VNum 2)] None None
                 (Proto.Roid [("k", VNum 1)] None None empty_world).1).2
              (Proto.Roid [("k", VNum 2)] None None
                 (Proto.Roid [("k", VNum 1)] None None empty_world).1).1) "k"
    = Some (VNum 1).
Proof.
  assert (NoDup [("k", VNum 1)].*1) as Hnd by (by apply (bool_decide_unpack _); vm_compute).
  split; [exact Hnd|].
  apply (proj2 (first_default_wins_across_roots [("k", VNum 1)] [("k", VNum 2)]
                  None None None None empty_world "k" (VNum 1) Hnd
                  ltac:(apply elem_of_cons; by left) eq_refl eq_refl ltac:(discriminate))
           0%nat (Key "k") eq_refl).
Defined.

(** A provider with [override = false] under a root [p] owns no root:
    its children render under [p].  While only leaf cells are
    registered, what a component under it writes with [set(v, k)], for a
    key [k] of its array, is what a component directly under [p] reads
    at its next render; the keys of the array are no names inherited
    from [Object.prototype]. *)
Theorem nested_provider_shares_values defaults p fuel ents w store k :
  only_leaves w -> stores w !! p = Some store ->
  Forall (fun v => is_leaf_entry (heap w) v = true) ents ->
  (forall k, k ∈ entry_keys (heap w) ents -> Proto.inherited k = false) ->
  k ∈ entry_keys (heap w) ents ->
  let m := Proto.Roid defaults (Some false) (Some p) w in
  m.2 = p /\ stores m.1 = stores w /\
  exists w' b,
    Proto.Injection fuel ents m.2 m.1 = (w', Ok b) /\
    forall v upd rp,
      exists s2 w2 b2,
        Proto.set b v k (Proto.mkSession upd rp w') = (s2, Ok tt) /\
        Proto.Injection fuel ents p (Proto.world s2) = (w2, Ok b2) /\
        dollar b2 !! k = Some v.
Proof.
  intros Hl Hs Hents Hplain Hk m. unfold m. rewrite Proto_Roid, Roid_inherits. simpl.
  set (f := filter registrable defaults).
  destruct (Path_frame f w) as (_ & Hst & Hh).
  split; [done|]. split; [done|].
  destruct (Proto_set_then_render_leaves fuel ents p (Path f w) store k)
    as (w' & b & Hrun & Hset).
  - by apply Path_only_leaves.
  - by rewrite Hst.
  - by rewrite Hh.
  - by rewrite Hh.
  - by rewrite Hh.
  - exists w', b. split; [exact Hrun|]. intros v upd rp.
    destruct (Hset v upd rp) as (s2 & w2 & b2 & H1 & _ & H3 & H4 & _).
    exists s2, w2, b2. split; [exact H1|]. split; [exact H3|].
    by rewrite H4, lookup_insert_eq.
Qed.

(** The README's [App] under a nested [<Roid override={false}>]. *)
Lemma nested_provider_shares_values_readme :
  "state_1" ∈ entry_keys (heap readme_world) readme_App /\
  exists w' b,
    Proto.Injection 0 readme_App (Proto.Roid [] (Some false) (Some 0%nat) readme_world).2
      (Proto.Roid [] (Some false) (Some 0%nat) readme_world).1 = (w', Ok b) /\
    exists s2 w2 b2,
      Proto.set b (VNum 6) "state_1"
        (Proto.mkSession Proto.empty_dict Proto.ObjectPrototype w') = (s2, Ok tt) /\
      Proto.Injection 0 readme_App 0 (Proto.world s2) = (w2, Ok b2) /\
      dollar b2 !! "state_1" = Some (VNum 6).
Proof.
  assert ("state_1" ∈ entry_keys (heap readme_world) readme_App) as Hk.
  { change ("state_1" ∈ ["state_1"; "state_2"]). apply elem_of_cons. by left. }
  split; [exact Hk|].
  destruct (nested_provider_shares_values [] 0 0 readme_App readme_world ∅ "state_1"
              readme_world_only_leaves eq_refl ltac:(repeat constructor)
              readme_App_plain Hk)
    as (_ & _ & w' & b & Hrun & Hset).
  exists w', b. split; [exact Hrun|].
  destruct (Hset (VNum 6) Proto.empty_dict Proto.ObjectPrototype)
    as (s2 & w2 & b2 & H1 & H2 & H3).
  exists s2, w2, b2. split; [exact H1|]. split; [exact H2|exact H3].
Defined.

(** A render outside every root: the empty array renders, with nothing
    bound; an array whose first entry has a key that is no name
    inherited from [Object.prototype] throws at the hook of that entry,
    after its cell was registered and before any other entry is looked
    at. *)
Theorem render_outside_every_root fuel v rest sc w key :
  stores w !! sc = None -> entry_key (heap w) v = Some key ->
  Proto.inherited key = false ->
  Proto.Injection fuel [] sc w = (w, Ok (mkBinding ∅ ∅ sc)) /\
  (Proto.Injection fuel (v :: rest) sc w).2 = Throw NoRecoilRoot /\
  is_Some (atoms (Proto.Injection fuel (v :: rest) sc w).1 !! key) /\
  forall k, k <> key -> atoms (Proto.Injection fuel (v :: rest) sc w).1 !! k = atoms w !! k.
Proof.
  intros Hs Hk Hi. split; [done|].
  destruct (resolve_first v w key Hk) as (w1 & a & Hr & Ha & Hst & Hother).
  unfold Proto.Injection. cbn [Proto.Injection_loop].
  rewrite Proto_resolve_own by (intros k; rewrite Hk; intros [= <-]; by right).
  rewrite Hr. unfold own_result, Proto.useRecoilState, Proto.useRecoilValue.
  simpl. rewrite Hst, Hs. simpl. split; [done|]. split; [by eexists|done].
Qed.

(** A component injecting ["a"] and ["b"] with no provider above it. *)
Lemma render_outside_every_root_unmounted :
  stores empty_world !! 0%nat = None /\
  (Proto.Injection 0 [Key "a"; Key "b"] 0 empty_world).2 = Throw NoRecoilRoot /\
  is_Some (atoms (Proto.Injection 0 [Key "a"; Key "b"] 0 empty_world).1 !! "a") /\
  atoms (Proto.Injection 0 [Key "a"; Key "b"] 0 empty_world).1 !! "b" = None.
Proof.
  split; [reflexivity|].
  destruct (render_outside_every_root 0 (Key "a") [Key "b"] 0 empty_world "a"
              eq_refl eq_refl eq_refl) as (_ & H1 & H2 & H3).
  split; [exact H1|]. split; [exact H2|]. by rewrite H3.
Defined.

(** ** What a render and a mount leave alone *)

Section Frame.

Lemma resolve_refs v w : refs (resolve v w).1 = refs w.
Proof.
  destruct v as [k|l]; simpl.
  - unfold resolve_leaf. by destruct (atoms w !! k).
  - destruct (heap w !! l) as [o|]; [|done].
    destruct (spec_get o) as [g|].
    + unfold resolve_computed. simpl. by destruct (atoms w !! spec_key o).
    + unfold resolve_leaf. by destruct (atoms w !! spec_key o).
Qed.

Lemma Injection_loop_values fuel ents b w :
  stores (Injection_loop fuel ents b w).1 = stores w /\
  refs (Injection_loop fuel ents b w).1 = refs w.
Proof.
  revert b w. induction ents as [|v rest IH]; intros b w; simpl; [done|].
  pose proof (resolve_stores v w) as Hs. pose proof (resolve_refs v w) as Hr.
  destruct (resolve v w) as [w1 [[key a]|e]]; simpl in *; [|done].
  destruct (useRecoilState fuel (scope b) a w1) as [[x st]|e]; simpl; [|done].
  destruct (IH (mkBinding (<[key:=x]> (dollar b)) (<[key:=st]> (setters b)) (scope b)) w1)
    as [-> ->]. done.
Qed.

End Frame.

(** Rendering and mounting write no value.  A render, whether it returns
    or throws, leaves every store and [refs] as they were; mounting a
    provider leaves [refs], the spec objects and every existing store as
    they were, and the root it returns for its children exists whenever
    the enclosing root does. *)
Theorem renders_and_mounts_write_no_value w :
  (forall fuel ents sc,
     stores (Injection fuel ents sc w).1 = stores w /\
     refs (Injection fuel ents sc w).1 = refs w) /\
  (forall defaults override parent,
     let m := Roid defaults override parent w in
     refs m.1 = refs w /\ heap m.1 = heap w /\
     (forall i st, stores w !! i = Some st -> stores m.1 !! i = Some st) /\
     ((forall p, parent = Some p -> is_Some (stores w !! p)) ->
      is_Some (stores m.1 !! m.2))).
Proof.
  split; [intros fuel ents sc; apply Injection_loop_values|].
  intros defaults override parent m.
  destruct (Roid_world defaults override parent w) as (w0 & E & _ & _ & Hh & Hr & Hst).
  fold m in E. destruct (Path_frame defaults w0) as (Hr' & Hs' & Hh').
  rewrite E. split; [congruence|]. split; [congruence|]. split.
  - intros i st Hi. rewrite Hs'. by apply Hst.
  - intros Hp. rewrite <- E. unfold m, Roid, RecoilRoot.
    destruct parent as [p|], (default true override); simpl; rewrite Path_stores; simpl;
      try (rewrite lookup_app_r, Nat.sub_diag by done; by eexists).
    by apply Hp.
Qed.

Section ProtoFrame.

Lemma Proto_Injection_loop_values fuel ents b w :
  stores (Proto.Injection_loop fuel ents b w).1 = stores w /\
  refs (Proto.Injection_loop fuel ents b w).1 = refs w.
Proof.
  revert b w. induction ents as [|v rest IH]; intros b w; simpl; [done|].
  destruct (Proto_resolve_values v w) as [Hs Hr].
  destruct (Proto.resolve v w) as [w1 [[key a]|e]]; simpl in *; [|done].
  destruct (Proto.useRecoilState fuel (scope b) a w1) as [[x st]|e]; simpl; [|done].
  destruct (IH (mkBinding (<[key:=x]> (dollar b)) (<[key:=st]> (setters b)) (scope b)) w1)
    as [-> ->]. done.
Qed.

Lemma Proto_refs_frame fuel ents sc defaults override parent w :
  refs (Proto.Roid defaults override parent (Proto.Injection fuel ents sc w).1).1 = refs w.
Proof.
  rewrite Proto_Roid.
  destruct (Roid_world (filter registrable defaults) override parent
              (Proto.Injection fuel ents sc w).1)
    as (w0 & E & _ & _ & _ & Hr & _).
  rewrite E.
  destruct (Path_frame (filter registrable defaults) w0) as (-> & _ & _). rewrite Hr.
  apply Proto_Injection_loop_values.
Qed.

End ProtoFrame.

(** [refs] is one object for the whole process: what an action of a
    component under one root stores there, under any name but
    ["__proto__"], is what an action of any component under any root
    reads, also after renders and mounts in between. *)
Theorem refs_are_shared_across_roots b1 b2 name v s1 upd2 :
  name <> "__proto__" ->
  forall fuel ents sc defaults override parent,
    let s1' := (Proto.run b1 (Proto.RefsSet name v (Proto.Return VUndefined)) s1).1 in
    let w2 := (Proto.Roid defaults override parent
                 (Proto.Injection fuel ents sc (Proto.world s1')).1).1 in
    let s2 := Proto.mkSession upd2 (Proto.refs_proto s1') w2 in
    Proto.dict_read (Proto.refs_dict s2) name = Proto.Val v /\
    forall k, Proto.run b2 (Proto.RefsGet name k) s2 = Proto.run b2 (k (Proto.Val v)) s2.
Proof.
  intros Hname fuel ents sc defaults override parent s1' w2 s2.
  assert (Proto.dict_read (Proto.refs_dict s2) name = Proto.Val v) as Hread.
  { apply Proto_dict_read_own. unfold s2, w2.
    cbn [Proto.refs_dict Proto.own Proto.world]. rewrite Proto_refs_frame.
    unfold s1'. simpl.
    rewrite (Proto_dict_write_own _ _ _ Hname). simpl. by rewrite lookup_insert_eq. }
  split; [exact Hread|]. intros k. simpl. by rewrite Hread.
Qed.

(** An action stores 42 under ["x"], and an action of another component
    reads 42; stored under ["__proto__"], 42 is ignored and the read
    gives [Object.prototype]. *)
Lemma refs_are_shared_across_roots_at_x :
  let b := mkBinding ∅ ∅ 0 in
  let s := Proto.mkSession Proto.empty_dict Proto.ObjectPrototype empty_world in
  "x" <> "__proto__" /\
  Proto.dict_read
    (Proto.refs_dict
       (Proto.mkSession Proto.empty_dict
          (Proto.refs_proto (Proto.run b (Proto.RefsSet "x" (VNum 42)
                                            (Proto.Return VUndefined)) s).1)
          (Proto.Roid [] None None
             (Proto.Injection 0 [] 0
                (Proto.world (Proto.run b (Proto.RefsSet "x" (VNum 42)
                                             (Proto.Return VUndefined)) s).1)).1).1))
    "x" = Proto.Val (VNum 42) /\
  Proto.dict_read
    (Proto.refs_dict (Proto.run b (Proto.RefsSet "__proto__" (VNum 42)
                                     (Proto.Return VUndefined)) s).1)
    "__proto__" = Proto.Builtin "__proto__".
Proof.
  intros b s.
  assert ("x" <> "__proto__") as Hx by discriminate.
  split; [exact Hx|]. split.
  - exact (proj1 (refs_are_shared_across_roots b b "x" (VNum 42) s Proto.empty_dict Hx
                    0%nat [] 0%nat [] None None)).
  - reflexivity.
Defined.

(** ** Reading a key that was not injected *)


